(** * virtiofsd: the virtio glue of the FUSE daemon (contrib/virtiofsd/fuse_virtio.c)

    A shallow embedding of the scatter/gather copy engine ([copy_from_iov],
    [copy_iov]), of the reply path ([virtio_send_msg]), of the queue worker
    ([fv_queue_thread]) and of the queue life cycle ([fv_queue_set_started]),
    with the properties the design document states about them.

    Conventions of the embedding.
    - A [struct iovec] is the buffer it designates: the [iov_len] bytes at
      [iov_base].  Two entries of a region list are two buffers.
    - [size_t] values are [nat]: every size the code computes is bounded by
      the length of a buffer or by [to_copy], and no subtraction of
      [copy_iov] goes below zero: [dst_len <= src_len <= to_copy] by the
      two [if]s, and [dst_offset <= iov_len] by the loop (see [copy_inv]).
    - [int] values (counts, queue indices, file descriptors) are [Z].
    - [assert] is enabled: a failed assertion aborts ([AssertFail]).
    - A memory access outside the buffer it is aimed at, or through a null
      pointer, is [OutOfBounds]. *)

From Stdlib Require Import ZArith Lia.
From Stdlib.Strings Require Import Byte.
From stdpp Require Import base list gmap.

Local Open Scope nat_scope.

(** ** Outcomes of a run of C code *)

Inductive outcome (A : Type) : Type :=
  | Done (a : A)          (* ran to the end / returned *)
  | AssertFail            (* an assert() fired: the process aborts *)
  | OutOfBounds           (* an access outside a buffer or an array, or
                             through a null or dangling pointer *)
  | OutOfFuel.            (* the loop did not finish within the fuel given *)
Arguments Done {A} a.
Arguments AssertFail {A}.
Arguments OutOfBounds {A}.
Arguments OutOfFuel {A}.

#[global] Instance outcome_ret : MRet outcome := @Done.
#[global] Instance outcome_bind : MBind outcome := λ A B k m,
  match m with
  | Done a => k a
  | AssertFail => AssertFail
  | OutOfBounds => OutOfBounds
  | OutOfFuel => OutOfFuel
  end.

(** ** Buffers and regions *)

(** [struct iovec { void *iov_base; size_t iov_len; }] *)
Definition iovec : Type := list byte.
Definition iov_len (v : iovec) : nat := length v.

(** Modelled from the spec: [iov_length], the helper that totals the lengths
    of a region list ("total out length", "total reply length"), is declared
    outside this file. *)
Definition iov_length (iov : list iovec) : nat := sum_list (iov_len <$> iov).

(** The byte sequence a region list designates, in region order. *)
Definition flatten (iov : list iovec) : list byte := concat iov.

(** [memcpy(dest + d_off, src + s_off, n)] on two buffers. *)
Definition memcpy (dest : list byte) (d_off : nat)
                  (src : list byte) (s_off : nat) (n : nat) : outcome (list byte) :=
  if (d_off + n <=? length dest) && (s_off + n <=? length src)
  then Done (take d_off dest ++ take n (drop s_off src) ++ drop (d_off + n) dest)
  else OutOfBounds.

(** *** copy_from_iov

    [out_sg] is the pointer into the region array (the regions from the
    current one on), [dest] the offset of the write cursor in [buf->mem]. *)
Fixpoint copy_from_iov_loop (out_num : nat) (mem : list byte) (dest : nat)
                            (out_sg : list iovec) : outcome (list byte) :=
  match out_num with
  | O => Done mem
  | S out_num' =>
      match out_sg with
      | [] => OutOfBounds
      | sg :: out_sg' =>
          let onelen := iov_len sg in
          mem' ← memcpy mem dest sg 0 onelen;
          copy_from_iov_loop out_num' mem' (dest + onelen) out_sg'
      end
  end.

Definition copy_from_iov (mem : list byte) (out_num : nat) (out_sg : list iovec)
  : outcome (list byte) :=
  copy_from_iov_loop out_num mem 0 out_sg.

(** *** copy_iov *)

(** The variables of [copy_iov] that both loops update.  [dst_done] holds the
    destination regions [dst_iov] has been moved past, so that
    [dst_done ++ dst_iov] is always the whole destination array. *)
Record copy_st : Type := CopySt {
  dst_done   : list iovec;
  dst_iov    : list iovec;
  dst_count  : Z;
  dst_offset : nat;
  to_copy    : nat;
}.

(** The whole destination array in a state of the copy. *)
Definition copy_dst (st : copy_st) : list iovec := dst_done st ++ dst_iov st.

(** Inner loop: copies the contents of one source region [src0] to maybe
    several destination regions. *)
Fixpoint copy_iov_inner (fuel : nat) (src0 : iovec) (src_offset src_len : nat)
                        (st : copy_st) : outcome copy_st :=
  if src_len =? 0 then Done st else
  match fuel with
  | O => OutOfFuel
  | S fuel' =>
      if (dst_count st =? 0)%Z then AssertFail else
      match dst_iov st with
      | [] => OutOfBounds
      | d :: rest =>
          let dst_len := iov_len d - dst_offset st in
          let dst_len := if src_len <? dst_len then src_len else dst_len in
          d' ← memcpy d (dst_offset st) src0 src_offset dst_len;
          let src_len' := src_len - dst_len in
          let to_copy' := to_copy st - dst_len in
          let src_offset' := src_offset + dst_len in
          let dst_offset' := dst_offset st + dst_len in
          if negb (dst_offset' <=? iov_len d) then AssertFail else
          if dst_offset' =? iov_len d then
            copy_iov_inner fuel' src0 src_offset' src_len'
              {| dst_done := dst_done st ++ [d']; dst_iov := rest;
                 dst_count := dst_count st - 1; dst_offset := 0;
                 to_copy := to_copy' |}
          else
            copy_iov_inner fuel' src0 src_offset' src_len'
              {| dst_done := dst_done st; dst_iov := d' :: rest;
                 dst_count := dst_count st; dst_offset := dst_offset';
                 to_copy := to_copy' |}
      end
  end.

(** Outer loop: one iteration per source region; every iteration ends with
    [src_iov++], so the recursion is on the source array. *)
Fixpoint copy_iov_outer (fuel : nat) (src_iov : list iovec) (src_count : Z)
                        (st : copy_st) : outcome copy_st :=
  if to_copy st =? 0 then Done st else
  if (src_count =? 0)%Z then AssertFail else
  match src_iov with
  | [] => OutOfBounds
  | s :: src_iov' =>
      let src_len := iov_len s in
      let src_len := if to_copy st <? src_len then to_copy st else src_len in
      st' ← copy_iov_inner fuel s 0 src_len st;
      copy_iov_outer fuel src_iov' (src_count - 1) st'
  end.

(** [copy_iov]; the result is the destination array after the copy. *)
Definition copy_iov (fuel : nat) (src_iov : list iovec) (src_count : Z)
                    (dst_iov : list iovec) (dst_count : Z) (to_copy : nat)
  : outcome (list iovec) :=
  st ← copy_iov_outer fuel src_iov src_count (CopySt [] dst_iov dst_count 0 to_copy);
  Done (copy_dst st).

(** The fuel [copy_iov] is run with: the inner loop leaves the current
    destination region in every iteration but its last one (the lemma
    [copy_iov_inner_fuel] below), so one more than the number of
    destination regions is always enough. *)
Definition copy_iov_fuel (dst_iov : list iovec) : nat := S (length dst_iov).

(** ** What the headers outside this file fix *)

(** Sizes and layout of [fuse_kernel.h]: the two header sizes and the read of
    [out->unique] from the bytes at [iov[0].iov_base]. *)
Class FuseAbi : Type := {
  sizeof_fuse_in_header  : nat;
  sizeof_fuse_out_header : nat;
  out_header_unique      : list byte → N;
}.

(** [<errno.h>] and [<poll.h>] of Linux. *)
Definition E2BIG : Z := 7.
Definition POLLIN : Z := 1.
Definition POLLERR : Z := 8.
Definition POLLHUP : Z := 16.
Definition POLLNVAL : Z := 32.

(** ** State-and-outcome monad

    A computation on a state [S] returns the outcome together with the state
    it stopped in, so that what an aborted run did before it aborted is
    still observable. *)

Definition M (S A : Type) : Type := S → outcome A * S.

#[global] Instance M_ret {S} : MRet (M S) := λ A a s, (Done a, s).
#[global] Instance M_bind {S} : MBind (M S) := λ A B k m s,
  match m s with
  | (Done a, s') => k a s'
  | (AssertFail, s') => (AssertFail, s')
  | (OutOfBounds, s') => (OutOfBounds, s')
  | (OutOfFuel, s') => (OutOfFuel, s')
  end.

Definition m_get {S} : M S S := λ s, (Done s, s).
Definition m_modify {S} (f : S → S) : M S unit := λ s, (Done tt, f s).
Definition m_lift {S A} (o : outcome A) : M S A := λ s, (o, s).
Definition m_assert {S} (b : bool) : M S unit :=
  if b then mret tt else m_lift AssertFail.

(** ** Data of the device *)

Definition loc : Type := positive.
Definition pthread_t : Type := Z.

(** [VuVirtqElement] of libvhost-user; [out_num] and [in_num] are the lengths
    of the two region arrays. *)
Record VuVirtqElement : Type := VuElem {
  index  : nat;
  out_sg : list iovec;
  in_sg  : list iovec;
}.
Definition out_num (e : VuVirtqElement) : nat := length (out_sg e).
Definition in_num (e : VuVirtqElement) : nat := length (in_sg e).

(** [struct fv_QueueInfo] (the back pointer [virtio_dev] is left out: there
    is one device). *)
Record fv_QueueInfo : Type := QueueInfo {
  thread  : pthread_t;
  qidx    : Z;
  kick_fd : Z;
  qe      : option VuVirtqElement;
}.
Arguments QueueInfo (thread qidx kick_fd)%_Z qe.

Record fuse_session : Type := Session {
  bufsize : nat;
  debug   : bool;
}.

(** [struct fuse_chan]: [qi] points to the queue record. *)
Record fuse_chan : Type := Chan {
  ch_fd  : Z;
  ch_ctr : Z;
  ch_qi  : loc;
}.

(** What the code does to the world outside its own variables. *)
Inductive event : Type :=
  | EvMalloc (size : nat)                        (* malloc(se->bufsize) *)
  | EvCopyFromIov (index : nat) (len : nat)      (* copy_from_iov(&fbuf, ...) *)
  | EvProcessBuf (index : nat) (req : list byte) (* fuse_session_process_buf_int *)
  | EvFreeElem (index : nat)                     (* free(elem) *)
  | EvFreeBuf                                    (* free(fbuf.mem) *)
  | EvCopyIov (index : nat) (len : nat)          (* copy_iov(iov, ..., in_sg, ...) *)
  | EvQueuePush (q : Z) (index : nat) (len : nat)(* vu_queue_push *)
  | EvQueueNotify (q : Z)                        (* vu_queue_notify *)
  | EvThreadCreate (q : Z) (ourqi : loc).        (* pthread_create *)

(** [struct fv_VuDev] with the heap its table points into.  [vud_qi] is the
    array [vud->qi]; [vud->nqueues] is its length. *)
Record world : Type := World {
  vud_qi     : list (option loc);
  heap       : gmap loc fv_QueueInfo;
  vq_kick_fd : Z → Z;                (* dev.vq[i].kick_fd *)
  log        : list event;
}.
Definition nqueues (w : world) : nat := length (vud_qi w).

Definition set_vud_qi (f : list (option loc) → list (option loc)) (w : world) : world :=
  World (f (vud_qi w)) (heap w) (vq_kick_fd w) (log w).
Definition set_heap (f : gmap loc fv_QueueInfo → gmap loc fv_QueueInfo) (w : world) : world :=
  World (vud_qi w) (f (heap w)) (vq_kick_fd w) (log w).
Definition emit (e : event) (w : world) : world :=
  World (vud_qi w) (heap w) (vq_kick_fd w) (log w ++ [e]).

Definition set_kick_fd (fd : Z) (r : fv_QueueInfo) : fv_QueueInfo :=
  QueueInfo (thread r) (qidx r) fd (qe r).
Definition set_thread (t : pthread_t) (r : fv_QueueInfo) : fv_QueueInfo :=
  QueueInfo t (qidx r) (kick_fd r) (qe r).
Definition set_qidx (i : Z) (r : fv_QueueInfo) : fv_QueueInfo :=
  QueueInfo (thread r) i (kick_fd r) (qe r).
Definition set_qe (e : option VuVirtqElement) (r : fv_QueueInfo) : fv_QueueInfo :=
  QueueInfo (thread r) (qidx r) (kick_fd r) e.
Definition set_in_sg (sg : list iovec) (e : VuVirtqElement) : VuVirtqElement :=
  VuElem (index e) (out_sg e) sg.

(** Dereference of a pointer to a queue record. *)
Definition deref (p : loc) : M world fv_QueueInfo := λ w,
  match heap w !! p with
  | Some r => (Done r, w)
  | None => (OutOfBounds, w)
  end.

(** ** virtio_send_msg *)

Section send.
Context `{FuseAbi}.

(** [ch] is [None] for a null channel; [iov], [count] are the reply regions
    ([count] is the length of [iov]). *)
Definition virtio_send_msg (se : fuse_session) (ch : option fuse_chan)
                           (iov : list iovec) : M world Z :=
  let count := Z.of_nat (length iov) in
  m_assert (1 <=? count)%Z;;
  iov0 ← m_lift (from_option Done OutOfBounds (iov !! 0));
  m_assert (sizeof_fuse_out_header <=? iov_len iov0);;
  let tosend_len := iov_length iov in
  (* unique == 0 is notification, which we don't support *)
  m_assert (negb (out_header_unique iov0 =? 0)%N);;
  (* For virtio we always have ch *)
  c ← from_option mret (m_lift AssertFail) ch;
  qi ← deref (ch_qi c);
  elem ← m_lift (from_option Done OutOfBounds (qe qi));
  let q := qidx qi in
  let in_len := iov_length (in_sg elem) in
  if in_len <? sizeof_fuse_out_header then mret (- E2BIG)%Z else
  if in_len <? tosend_len then mret (- E2BIG)%Z else
  m_modify (emit (EvCopyIov (index elem) tosend_len));;
  in_sg' ← m_lift (copy_iov (copy_iov_fuel (in_sg elem)) iov count
                            (in_sg elem) (Z.of_nat (in_num elem)) tosend_len);
  m_modify (set_heap (insert (ch_qi c) (set_qe (Some (set_in_sg in_sg' elem)) qi)));;
  m_modify (emit (EvQueuePush q (index elem) tosend_len));;
  m_modify (emit (EvQueueNotify q));;
  mret 0%Z.

End send.

(** ** fv_queue_thread *)

(** The variables of one worker thread: [fbuf] ([mem] is [None] for NULL),
    the [qe] field of its queue record, and what it did so far. *)
Record thread_st : Type := ThreadSt {
  fbuf_mem  : option (list byte);
  fbuf_size : nat;
  thr_qe    : option VuVirtqElement;
  thr_log   : list event;
}.

Definition set_fbuf_mem (m : option (list byte)) (t : thread_st) : thread_st :=
  ThreadSt m (fbuf_size t) (thr_qe t) (thr_log t).
Definition set_fbuf_size (n : nat) (t : thread_st) : thread_st :=
  ThreadSt (fbuf_mem t) n (thr_qe t) (thr_log t).
Definition set_thr_qe (e : option VuVirtqElement) (t : thread_st) : thread_st :=
  ThreadSt (fbuf_mem t) (fbuf_size t) e (thr_log t).
Definition thr_emit (e : event) (t : thread_st) : thread_st :=
  ThreadSt (fbuf_mem t) (fbuf_size t) (thr_qe t) (thr_log t ++ [e]).

(** What the system gives one wake-up of the worker. *)
Inductive ppoll_result : Type :=
  | PpollEINTR                    (* -1 with errno == EINTR *)
  | PpollFailed                   (* -1 with another errno *)
  | PpollReturned (poll_res revents : Z).

Record wake : Type := Wake {
  wk_ppoll      : ppoll_result;
  wk_eventfd_ok : bool;                 (* eventfd_read returned 0 *)
  wk_out_bytes  : nat;                  (* vu_queue_get_avail_bytes *)
  wk_chains     : list VuVirtqElement;  (* what vu_queue_pop returns, until NULL *)
}.

Inductive loop_exit : Type :=
  | LoopWaiting     (* blocked in ppoll: nothing more happens *)
  | LoopBroken.     (* left the loop by [break] *)

Section worker.
Context `{FuseAbi}.
Variable malloc : nat → option (list byte).
Variable se : fuse_session.

(** The body of the inner [while (1)] for one popped chain [elem]. *)
Definition fv_queue_thread_elem (elem : VuVirtqElement) : M thread_st unit :=
  t ← m_get;
  mem ← match fbuf_mem t with
        | None =>
            m_modify (thr_emit (EvMalloc (bufsize se)));;
            m_modify (set_fbuf_mem (malloc (bufsize se)));;
            mem ← from_option mret (m_lift AssertFail) (malloc (bufsize se));
            m_assert (sizeof_fuse_in_header <? bufsize se);;
            mret mem
        | Some mem => mret mem
        end;
  (* The 'out' part of the elem is from qemu *)
  let out_len := iov_length (out_sg elem) in
  m_assert (negb (out_len <? sizeof_fuse_in_header));;
  m_assert (negb (bufsize se <? out_len));;
  m_modify (thr_emit (EvCopyFromIov (index elem) out_len));;
  mem' ← m_lift (copy_from_iov mem (out_num elem) (out_sg elem));
  m_modify (set_fbuf_mem (Some mem'));;
  m_modify (set_fbuf_size out_len);;
  m_modify (thr_emit (EvProcessBuf (index elem) (take out_len mem')));;
  m_modify (set_thr_qe None);;
  m_modify (thr_emit (EvFreeElem (index elem))).

(** The inner [while (1)]: pop until the queue gives NULL. *)
Fixpoint fv_queue_thread_drain (chains : list VuVirtqElement) : M thread_st unit :=
  match chains with
  | [] => mret tt
  | elem :: chains' =>
      fv_queue_thread_elem elem;;
      fv_queue_thread_drain chains'
  end.

(** The outer [while (1)], one iteration per wake-up. *)
Fixpoint fv_queue_thread_loop (wakes : list wake) : M thread_st loop_exit :=
  match wakes with
  | [] => mret LoopWaiting
  | w :: wakes' =>
      match wk_ppoll w with
      | PpollEINTR => fv_queue_thread_loop wakes'
      | PpollFailed => mret LoopBroken
      | PpollReturned poll_res revents =>
          if (poll_res =? -1)%Z then mret LoopBroken else
          m_assert (poll_res =? 1)%Z;;
          if negb (Z.land revents (Z.lor POLLERR (Z.lor POLLHUP POLLNVAL)) =? 0)%Z
          then mret LoopBroken else
          m_assert (negb (Z.land revents POLLIN =? 0)%Z);;
          if negb (wk_eventfd_ok w) then mret LoopBroken else
          if wk_out_bytes w =? 0 then fv_queue_thread_loop wakes' else
          fv_queue_thread_drain (wk_chains w);;
          fv_queue_thread_loop wakes'
      end
  end.

Definition fv_queue_thread (wakes : list wake) : M thread_st loop_exit :=
  m_modify (set_fbuf_mem None);;
  r ← fv_queue_thread_loop wakes;
  match r with
  | LoopWaiting => mret LoopWaiting
  | LoopBroken => m_modify (thr_emit EvFreeBuf);; mret LoopBroken
  end.

End worker.

(** ** fv_queue_set_started *)

(** What libc gives one call of [fv_queue_set_started]. *)
Record sys : Type := Sys {
  realloc_ok     : bool;               (* realloc returned non-NULL *)
  realloc_fill   : nat → option loc;   (* contents of the part realloc added *)
  calloc_ok      : bool;               (* calloc returned non-NULL *)
  pthread_create : option pthread_t;   (* None: pthread_create failed *)
}.

(** [realloc(qi, n * sizeof(qi[0]))]: the old entries are kept, the entries
    added are whatever the allocator left there. *)
Definition realloc (fill : nat → option loc) (qi : list (option loc)) (n : nat)
  : list (option loc) :=
  take n qi ++ (fill <$> seq (length qi) (n - length qi)).

(** [memset(qi + from, 0, sizeof(qi[0]) * n)] *)
Definition memset_null (qi : list (option loc)) (from n : nat)
  : outcome (list (option loc)) :=
  if from + n <=? length qi
  then Done (take from qi ++ replicate n None ++ drop (from + n) qi)
  else OutOfBounds.

(** [vud->qi[i]] *)
Definition table_get (i : nat) : M world (option loc) := λ w,
  match vud_qi w !! i with
  | Some p => (Done p, w)
  | None => (OutOfBounds, w)
  end.

Definition fv_queue_set_started (os : sys) (qidx : Z) (started : bool) : M world unit :=
  m_assert (0 <=? qidx)%Z;;
  if (qidx =? 0)%Z then mret tt else
  let i := Z.to_nat qidx in
  if started then
    (* Fire up a thread to watch this queue *)
    w ← m_get;
    (if nqueues w <=? i then
       m_modify (set_vud_qi (λ qi, realloc (realloc_fill os) qi (i + 1)));;
       m_assert (realloc_ok os);;
       qi' ← m_lift (memset_null (realloc (realloc_fill os) (vud_qi w) (i + 1))
                                 (nqueues w) (1 + (i - nqueues w)));
       m_modify (set_vud_qi (λ _, qi'))
     else mret tt);;
    p ← table_get i;
    ourqi ← match p with
            | None =>
                w ← m_get;
                if negb (calloc_ok os) then m_lift OutOfBounds else
                let ourqi := fresh (dom (heap w)) in
                m_modify (set_vud_qi (<[i := Some ourqi]>));;
                m_modify (set_heap (<[ourqi := QueueInfo 0%Z qidx 0%Z None]>));;
                mret ourqi
            | Some ourqi =>
                r ← deref ourqi;
                m_assert (kick_fd r =? -1)%Z;;
                mret ourqi
            end;
    w ← m_get;
    m_modify (set_heap (alter (set_kick_fd (vq_kick_fd w qidx)) ourqi));;
    match pthread_create os with
    | None => m_lift AssertFail
    | Some tid =>
        m_modify (set_heap (alter (set_thread tid) ourqi));;
        m_modify (emit (EvThreadCreate qidx ourqi))
    end
  else
    w ← m_get;
    m_assert (i <? nqueues w);;
    p ← table_get i;
    ourqi ← from_option mret (m_lift OutOfBounds) p;
    _ ← deref ourqi;
    m_modify (set_heap (alter (set_kick_fd (-1)) ourqi)).

(** ** virtio_loop *)

(** Modelled from the spec: [vu_dispatch] of libvhost-user handles one
    round of the control socket.  While it does, it calls back into the
    device through [fv_iface], where [queue_set_started] is the only
    callback with an effect; it returns false on failure. *)
Record vu_round : Type := VuRound {
  vr_calls : list (sys * Z * bool);   (* the calls of fv_queue_set_started *)
  vr_ok    : bool;                    (* what vu_dispatch returns *)
}.

Fixpoint vu_dispatch_calls (calls : list (sys * Z * bool)) : M world unit :=
  match calls with
  | [] => mret tt
  | (os, qidx, started) :: calls' =>
      fv_queue_set_started os qidx started;;
      vu_dispatch_calls calls'
  end.

(** What the system gives one turn of the control loop. *)
Record ctl_wake : Type := CtlWake {
  cw_exited : bool;            (* fuse_session_exited(se) *)
  cw_ppoll  : ppoll_result;
  cw_round  : vu_round;
}.

Inductive ctl_exit : Type :=
  | CtlWaiting                 (* blocked in ppoll: nothing more happens *)
  | CtlReturned (ret : Z).

Fixpoint virtio_loop (wakes : list ctl_wake) : M world ctl_exit :=
  match wakes with
  | [] => mret CtlWaiting
  | cw :: wakes' =>
      if cw_exited cw then mret (CtlReturned 0) else
      match cw_ppoll cw with
      | PpollEINTR => virtio_loop wakes'
      | PpollFailed => mret (CtlReturned 0)
      | PpollReturned poll_res revents =>
          if (poll_res =? -1)%Z then mret (CtlReturned 0) else
          m_assert (poll_res =? 1)%Z;;
          if negb (Z.land revents (Z.lor POLLERR (Z.lor POLLHUP POLLNVAL)) =? 0)%Z
          then mret (CtlReturned 0) else
          m_assert (negb (Z.land revents POLLIN =? 0)%Z);;
          vu_dispatch_calls (vr_calls (cw_round cw));;
          if negb (vr_ok (cw_round cw)) then mret (CtlReturned 0) else
          virtio_loop wakes'
      end
  end.

(** ** virtio_session_mount *)

(** The fields of [struct fuse_session] the mount uses.  The socket path is
    the C string without its NUL; [se_virtio_dev] is [None] for NULL and
    otherwise the queue table of the zeroed [struct fv_VuDev]. *)
Record mount_se : Type := MountSe {
  se_fd          : Z;
  vu_socket_path : list byte;
  vu_socketfd    : Z;
  se_virtio_dev  : option (list (option loc));
}.

Inductive sock_event : Type :=
  | EvUnlink (path : list byte)
  | EvSocket (fd : Z)
  | EvBind (fd : Z) (sun_path : list byte) (addr_len : nat)
  | EvListen (fd : Z)
  | EvAccept (fd data_sock : Z)
  | EvClose (fd : Z)
  | EvVuInit (fd : Z).

(** What the system gives one mount. *)
Record sock_sys : Type := SockSys {
  sys_socket : Z;
  sys_bind   : Z;
  sys_listen : Z;
  sys_accept : Z;
  sys_calloc : bool;     (* calloc returned non-NULL *)
}.

Record mount_st : Type := MountSt {
  ms_se  : mount_se;
  ms_log : list sock_event;
}.

Definition set_se_fd (fd : Z) (st : mount_st) : mount_st :=
  MountSt (MountSe fd (vu_socket_path (ms_se st)) (vu_socketfd (ms_se st))
             (se_virtio_dev (ms_se st))) (ms_log st).
Definition set_vu_socketfd (fd : Z) (st : mount_st) : mount_st :=
  MountSt (MountSe (se_fd (ms_se st)) (vu_socket_path (ms_se st)) fd
             (se_virtio_dev (ms_se st))) (ms_log st).
Definition set_virtio_dev (d : option (list (option loc))) (st : mount_st) : mount_st :=
  MountSt (MountSe (se_fd (ms_se st)) (vu_socket_path (ms_se st))
             (vu_socketfd (ms_se st)) d) (ms_log st).
Definition sock_emit (e : sock_event) (st : mount_st) : mount_st :=
  MountSt (ms_se st) (ms_log st ++ [e]).

(** The value an [int] gets from a constant that does not fit (two's
    complement wrap-around). *)
Definition to_int (z : Z) : Z := ((z + 2 ^ 31) mod 2 ^ 32 - 2 ^ 31)%Z.

(** [strcpy(dst, src)] into an array of [size] bytes: the string and its
    NUL. *)
Definition strcpy (size : nat) (src : list byte) : outcome (list byte) :=
  if length src + 1 <=? size then Done (src ++ [x00%byte]) else OutOfBounds.

Section mount.
(** [sizeof(un.sun_path)] and [sizeof(un.sun_family)] of [<sys/un.h>]. *)
Variable sizeof_sun_path : nat.
Variable sizeof_sun_family : nat.

Definition virtio_session_mount (os : sock_sys) : M mount_st Z :=
  st ← m_get;
  let path := vu_socket_path (ms_se st) in
  if sizeof_sun_path <=? length path then mret (-1)%Z else
  m_modify (set_se_fd (to_int 0xdaff0d11));;
  m_modify (sock_emit (EvUnlink path));;
  sun_path ← m_lift (strcpy sizeof_sun_path path);
  let addr_len := sizeof_sun_family + length path in
  let listen_sock := sys_socket os in
  m_modify (sock_emit (EvSocket listen_sock));;
  if (listen_sock =? -1)%Z then mret (-1)%Z else
  m_modify (sock_emit (EvBind listen_sock sun_path addr_len));;
  if (sys_bind os =? -1)%Z then mret (-1)%Z else
  m_modify (sock_emit (EvListen listen_sock));;
  if (sys_listen os =? -1)%Z then mret (-1)%Z else
  let data_sock := sys_accept os in
  m_modify (sock_emit (EvAccept listen_sock data_sock));;
  if (data_sock =? -1)%Z then
    m_modify (sock_emit (EvClose listen_sock));;
    mret (-1)%Z
  else
  m_modify (sock_emit (EvClose listen_sock));;
  m_modify (set_vu_socketfd data_sock);;
  m_modify (set_virtio_dev (if sys_calloc os then Some [] else None));;
  (if sys_calloc os then mret tt else m_lift OutOfBounds);;
  m_modify (sock_emit (EvVuInit data_sock));;
  mret 0%Z.

End mount.

(** ** Notions the statements use *)

(** [splice buf pos data]: [buf] with [data] written at offset [pos]. *)
Definition splice (buf : list byte) (pos : nat) (data : list byte) : list byte :=
  take pos buf ++ data ++ drop (pos + length data) buf.

(** The write position of a state of [copy_iov] in the flattened
    destination. *)
Definition copy_pos (st : copy_st) : nat :=
  length (flatten (dst_done st)) + dst_offset st.

(** What the loops of [copy_iov] keep true: the count is the number of
    regions left, and the offset lies within the current region. *)
Definition copy_inv (st : copy_st) : Prop :=
  dst_count st = Z.of_nat (length (dst_iov st)) ∧
  match dst_iov st with
  | [] => dst_offset st = 0
  | d :: _ => dst_offset st ≤ iov_len d
  end.

(** [copy_wrote st st' data]: from [st] to [st'] the loops wrote [data] at
    the write position, moved the position past it and counted it off
    [to_copy], without changing the shape of the destination. *)
Definition copy_wrote (st st' : copy_st) (data : list byte) : Prop :=
  copy_pos st + length data ≤ length (flatten (copy_dst st)) ∧
  copy_inv st' ∧
  flatten (copy_dst st') = splice (flatten (copy_dst st)) (copy_pos st) data ∧
  copy_pos st' = copy_pos st + length data ∧
  to_copy st' = to_copy st - length data ∧
  length (dst_iov st') ≤ length (dst_iov st) ∧
  iov_len <$> copy_dst st' = iov_len <$> copy_dst st.

(** The number of allocations of a request buffer in a log. *)
Definition is_malloc (e : event) : bool :=
  match e with EvMalloc _ => true | _ => false end.
Definition count_malloc (l : list event) : nat := length (List.filter is_malloc l).

(** What [fv_queue_thread_elem] does once the request buffer [mem] is
    there: the two checks on the "out" length, the copy, the call of the
    session and the release of the chain. *)
Definition elem_body `{FuseAbi} (se : fuse_session) (elem : VuVirtqElement)
    (mem : list byte) (t : thread_st) : outcome unit * thread_st :=
  let out_len := iov_length (out_sg elem) in
  if out_len <? sizeof_fuse_in_header then (AssertFail, t) else
  if bufsize se <? out_len then (AssertFail, t) else
  let t1 := thr_emit (EvCopyFromIov (index elem) out_len) t in
  match copy_from_iov mem (out_num elem) (out_sg elem) with
  | Done mem' =>
      (Done tt,
       thr_emit (EvFreeElem (index elem))
         (set_thr_qe None
            (thr_emit (EvProcessBuf (index elem) (take out_len mem'))
               (set_fbuf_size out_len (set_fbuf_mem (Some mem') t1)))))
  | AssertFail => (AssertFail, t1)
  | OutOfBounds => (OutOfBounds, t1)
  | OutOfFuel => (OutOfFuel, t1)
  end.

(** The state of a worker right after its [malloc]. *)
Definition after_malloc (malloc : nat → option (list byte)) (se : fuse_session)
    (t : thread_st) : thread_st :=
  set_fbuf_mem (malloc (bufsize se)) (thr_emit (EvMalloc (bufsize se)) t).

(** What a run of the worker keeps true of its request buffer: either
    nothing was logged and there is no buffer, or the log starts with the
    one allocation, of [se->bufsize] bytes, and the buffer has that size. *)
Definition buf_allocated (se : fuse_session) (t : thread_st) : Prop :=
  ∃ post mem, thr_log t = EvMalloc (bufsize se) :: post ∧ count_malloc post = 0 ∧
              fbuf_mem t = Some mem ∧ length mem = bufsize se.
Definition buf_inv (se : fuse_session) (t : thread_st) : Prop :=
  (thr_log t = [] ∧ fbuf_mem t = None) ∨ buf_allocated se t.

(** The same for a run that may have aborted (the buffer may be missing
    after a failed allocation). *)
Definition buf_inv_weak (se : fuse_session) (t : thread_st) : Prop :=
  (thr_log t = [] ∨
   ∃ post, thr_log t = EvMalloc (bufsize se) :: post ∧ count_malloc post = 0) ∧
  (∀ mem, fbuf_mem t = Some mem → length mem = bufsize se).

(** A wake-up after which the worker stays in its loop: an interrupted
    wait, or a kick ([ppoll] returned 1 with POLLIN and no error bit, and
    the eventfd was read). *)
Definition wake_ok (w : wake) : Prop :=
  wk_ppoll w = PpollEINTR ∨
  ∃ revents,
    wk_ppoll w = PpollReturned 1 revents ∧
    Z.land revents (Z.lor POLLERR (Z.lor POLLHUP POLLNVAL)) = 0%Z ∧
    Z.land revents POLLIN ≠ 0%Z ∧
    wk_eventfd_ok w = true.

(** The chains the worker pops at such a wake-up: none after an
    interrupted wait or a kick without "out" bytes, else all the queue
    gives; and the chains it pops on a script of such wake-ups, in order. *)
Definition kick_chains (w : wake) : list VuVirtqElement :=
  match wk_ppoll w with
  | PpollReturned _ _ => if wk_out_bytes w =? 0 then [] else wk_chains w
  | _ => []
  end.
Definition script_chains (wakes : list wake) : list VuVirtqElement :=
  concat (kick_chains <$> wakes).

(** A chain that passes the two checks on its "out" length. *)
Definition chain_ok `{FuseAbi} (se : fuse_session) (elem : VuVirtqElement) : Prop :=
  sizeof_fuse_in_header ≤ iov_length (out_sg elem) ≤ bufsize se.

(** What handling one chain adds to the log, and what it makes of the
    request buffer: the request written over the start of the buffer. *)
Definition chain_events (elem : VuVirtqElement) : list event :=
  [ EvCopyFromIov (index elem) (iov_length (out_sg elem));
    EvProcessBuf (index elem) (flatten (out_sg elem));
    EvFreeElem (index elem) ].
Definition buf_write (mem : list byte) (elem : VuVirtqElement) : list byte :=
  flatten (out_sg elem) ++ drop (iov_length (out_sg elem)) mem.

(** The log and the buffer of a worker that started without a buffer and
    handled the chains [cs], when [malloc] gave it the block [mem0]: no
    allocation before the first chain, one allocation right before it,
    and from then on the same block, written over by each request. *)
Definition log_after (se : fuse_session) (cs : list VuVirtqElement) : list event :=
  match cs with
  | [] => []
  | _ => EvMalloc (bufsize se) :: concat (chain_events <$> cs)
  end.
Definition buf_after (mem0 : list byte) (cs : list VuVirtqElement)
  : option (list byte) :=
  match cs with
  | [] => None
  | _ => Some (foldl buf_write mem0 cs)
  end.

(** The worker after the chains [cs]: its log and its buffer are the ones
    [log_after] and [buf_after] describe. *)
Definition handled_chains `{FuseAbi} (se : fuse_session) (mem0 : list byte)
    (cs : list VuVirtqElement) (t : thread_st) : Prop :=
  thr_log t = log_after se cs ∧ fbuf_mem t = buf_after mem0 cs ∧
  Forall (chain_ok se) cs.

(** Counting the events of one kind in a log. *)
Definition count_if (f : event → bool) (l : list event) : nat :=
  length (List.filter f l).
Definition is_copy_from_iov (e : event) : bool :=
  match e with EvCopyFromIov _ _ => true | _ => false end.
Definition is_process_buf (e : event) : bool :=
  match e with EvProcessBuf _ _ => true | _ => false end.
Definition is_free_elem (e : event) : bool :=
  match e with EvFreeElem _ => true | _ => false end.

(** A request handed to the session has at least the size of a request
    header and at most [se->bufsize] bytes. *)
Definition req_ok `{FuseAbi} (se : fuse_session) (e : event) : Prop :=
  match e with
  | EvProcessBuf _ req => sizeof_fuse_in_header ≤ length req ≤ bufsize se
  | _ => True
  end.

(** What every state of a worker satisfies, aborted or not: the buffer, if
    there is one, has [se->bufsize] bytes; the requests handed to the
    session are well sized; and as many chains were copied as were handed
    to the session and as were released. *)
Definition worker_inv `{FuseAbi} (se : fuse_session) (t : thread_st) : Prop :=
  (∀ mem, fbuf_mem t = Some mem → length mem = bufsize se) ∧
  Forall (req_ok se) (thr_log t) ∧
  count_if is_copy_from_iov (thr_log t) = count_if is_process_buf (thr_log t) ∧
  count_if is_process_buf (thr_log t) = count_if is_free_elem (thr_log t).

(** A log without any event of a chain. *)
Definition no_chain_event (l : list event) : Prop :=
  Forall (λ e, is_copy_from_iov e = false ∧ is_process_buf e = false) l.

(** The queue table is well formed: every non-null entry points to a
    record on the heap that carries the index of the entry (so no two
    entries share a record), and entry 0 is null. *)
Definition table_wf (w : world) : Prop :=
  (∀ i p, vud_qi w !! i = Some (Some p) →
          ∃ r, heap w !! p = Some r ∧ qidx r = Z.of_nat i) ∧
  (∀ p, vud_qi w !! 0 ≠ Some (Some p)).

(** ** Concrete data for the examples *)

(** Three source regions of 2, 0 and 3 bytes, and four destination regions
    of 1, 0, 3 and 2 bytes. *)
Definition ex_src : list iovec :=
  [ [x01; x02]; []; [x03; x04; x05] ]%list%byte.
Definition ex_dst : list iovec :=
  [ [xa0]; []; [xa1; xa2; xa3]; [xa4; xa5] ]%list%byte.

(** A request buffer of eight bytes. *)
Definition ex_mem : list byte := replicate 8 xff%byte.

(** The layout of Linux's FUSE protocol: a 40-byte request header, and a
    16-byte reply header [{ uint32_t len; int32_t error; uint64_t unique; }]
    read on a little-endian host. *)
Definition le_decode (bs : list byte) : N :=
  foldr (λ b acc, Byte.to_N b + 256 * acc)%N 0%N bs.

Definition linux_abi : FuseAbi := {|
  sizeof_fuse_in_header := 40;
  sizeof_fuse_out_header := 16;
  out_header_unique := λ hdr, le_decode (take 8 (drop 8 hdr));
|}.

(** An allocator that always succeeds, a system where every call succeeds
    and [realloc] leaves stale pointers in the part it adds. *)
Definition ex_malloc (n : nat) : option (list byte) := Some (replicate n x00%byte).
Definition ex_sys : sys := Sys true (λ _, Some 99%positive) true (Some 77%Z).

Definition ex_se : fuse_session := Session 64 false.
Definition ex_ch : fuse_chan := Chan 0%Z 1%Z 1%positive.

(** A reply of 16 + 3 bytes with [unique = 7], one of 16 bytes with
    [unique = 0]. *)
Definition ex_reply_hdr : iovec :=
  [x13; x00; x00; x00; x00; x00; x00; x00; x07; x00; x00; x00; x00; x00; x00; x00]%byte.
Definition ex_reply : list iovec := [ ex_reply_hdr; [xb1; xb2; xb3]%byte ].
Definition ex_notify_hdr : iovec := replicate 16 x00%byte.
Definition ex_notify : list iovec := [ ex_notify_hdr ].

(** A chain with 24 bytes of "in" room in two regions, and one with 8. *)
Definition ex_elem : VuVirtqElement :=
  VuElem 5 [] [ replicate 10 xee%byte; replicate 14 xee%byte ].
Definition ex_elem_small : VuVirtqElement :=
  VuElem 6 [] [ replicate 8 xee%byte ].

Definition ex_qi (e : VuVirtqElement) : fv_QueueInfo :=
  QueueInfo 10%Z 1%Z 3%Z (Some e).
Definition ex_world (e : VuVirtqElement) : world :=
  World [None; Some 1%positive] {[ 1%positive := ex_qi e ]} (λ _, 3%Z) [].

(** Chains with 42 bytes of request in two regions, with 8 bytes, and with
    70 bytes. *)
Definition ex_chain (i : nat) : VuVirtqElement :=
  VuElem i [ replicate 30 x11%byte; replicate 12 x22%byte ] [ replicate 32 x00%byte ].
Definition ex_chain_short : VuVirtqElement :=
  VuElem 8 [ replicate 8 x11%byte ] [ replicate 32 x00%byte ].
Definition ex_chain_long : VuVirtqElement :=
  VuElem 9 [ replicate 70 x11%byte ] [ replicate 32 x00%byte ].

(** A worker that has not run yet, and a script for it: an interrupted
    wait, a kick with two chains, a spurious kick, a kick with one chain. *)
Definition ex_thread : thread_st := ThreadSt None 0 None [].
Definition ex_wakes : list wake :=
  [ Wake PpollEINTR true 0 [];
    Wake (PpollReturned 1 POLLIN) true 84 [ex_chain 1; ex_chain 2];
    Wake (PpollReturned 1 POLLIN) true 0 [ex_chain 7];
    Wake (PpollReturned 1 POLLIN) true 42 [ex_chain 3] ].

(** The device before any queue was started. *)
Definition ex_world_empty : world := World [] ∅ (λ _, 3%Z) [].

(** A mount on a short path where every call succeeds, and the session
    before it. *)
Definition ex_mount_sys : sock_sys := SockSys 4 0 0 5 true.
Definition ex_mount_st : mount_st :=
  MountSt (MountSe 0 [x2f; x74; x6d; x70; x2f; x76]%byte (-1) None) [].

(** A turn of the control loop that starts queues 1 and 2. *)
Definition ex_ctl_wakes : list ctl_wake :=
  [ CtlWake false PpollEINTR (VuRound [] true);
    CtlWake false (PpollReturned 1 POLLIN)
      (VuRound [(ex_sys, 0%Z, true); (ex_sys, 2%Z, true); (ex_sys, 1%Z, true)] true);
    CtlWake true PpollFailed (VuRound [] true) ].

(** * Properties *)

(** ** Lists *)

Lemma length_splice buf pos data :
  pos + length data ≤ length buf →
  length (splice buf pos data) = length buf.
Proof.
  intros Hle. unfold splice.
  rewrite !length_app, length_take, length_drop. lia.
Qed.

Lemma splice_nil buf pos : pos ≤ length buf → splice buf pos [] = buf.
Proof.
  intros _. unfold splice. simpl. rewrite Nat.add_0_r. apply take_drop.
Qed.

Lemma splice_splice buf pos a b :
  pos + length a + length b ≤ length buf →
  splice (splice buf pos a) (pos + length a) b = splice buf pos (a ++ b).
Proof.
  intros Hle. unfold splice.
  assert (Hp : length (take pos buf) = pos) by (rewrite length_take; lia).
  rewrite (app_assoc (take pos buf) a).
  rewrite take_app_length' by (rewrite length_app; lia).
  rewrite drop_app_add' by (rewrite length_app; lia).
  rewrite drop_drop, length_app, <- !app_assoc.
  by rewrite Nat.add_assoc.
Qed.

Lemma splice_middle l1 d l2 off data :
  off + length data ≤ length d →
  splice (l1 ++ d ++ l2) (length l1 + off) data = l1 ++ splice d off data ++ l2.
Proof.
  intros Hle. unfold splice.
  rewrite take_app_add', <- Nat.add_assoc, drop_app_add' by done.
  rewrite take_app_le, drop_app_le by lia.
  by rewrite <- !app_assoc.
Qed.

Lemma take_splice_0 buf data :
  length data ≤ length buf → take (length data) (splice buf 0 data) = data.
Proof.
  intros _. unfold splice. simpl. by rewrite take_app_length.
Qed.

Lemma drop_splice_0 buf data :
  drop (length data) (splice buf 0 data) = drop (length data) buf.
Proof.
  unfold splice. simpl. by rewrite drop_app_length.
Qed.

Lemma take_drop_chunks {A} (l : list A) off n m :
  take n (drop off l) ++ take m (drop (off + n) l) = take (n + m) (drop off l).
Proof. by rewrite <- drop_drop, take_take_drop. Qed.

Lemma iov_length_flatten iov : iov_length iov = length (flatten iov).
Proof.
  unfold iov_length, flatten. induction iov as [|v iov IH]; simpl; [done|].
  rewrite length_app. unfold iov_len at 1. by f_equal.
Qed.

Lemma memcpy_in_bounds dest d_off src s_off n dest' :
  memcpy dest d_off src s_off n = Done dest' →
  d_off + n ≤ length dest ∧ s_off + n ≤ length src ∧ length dest' = length dest.
Proof.
  unfold memcpy. destruct (Nat.leb_spec (d_off + n) (length dest)); [|done].
  destruct (Nat.leb_spec (s_off + n) (length src)); [|done].
  simpl. intros [= <-]. split_and!; try done.
  rewrite !length_app, !length_take, !length_drop. lia.
Qed.

Lemma memcpy_ok dest d_off src s_off n :
  d_off + n ≤ length dest → s_off + n ≤ length src →
  memcpy dest d_off src s_off n = Done (splice dest d_off (take n (drop s_off src))).
Proof.
  intros Hd Hs. unfold memcpy, splice.
  rewrite !(proj2 (Nat.leb_le _ _)) by done. simpl.
  rewrite length_take, length_drop. do 4 f_equal. lia.
Qed.

(** ** copy_from_iov *)

Lemma copy_from_iov_loop_ok out_sg : ∀ mem dest,
  dest + length (flatten out_sg) ≤ length mem →
  copy_from_iov_loop (length out_sg) mem dest out_sg
  = Done (splice mem dest (flatten out_sg)).
Proof.
  induction out_sg as [|sg out_sg IH]; intros mem dest Hcap; simpl.
  - rewrite splice_nil; [done | lia].
  - simpl in Hcap. rewrite length_app in Hcap. unfold iov_len.
    rewrite memcpy_ok by lia. simpl.
    rewrite drop_0, firstn_all.
    rewrite IH by (rewrite length_splice; lia).
    by rewrite splice_splice by lia.
Qed.

(** ** copy_iov *)

Lemma copy_wrote_nil st :
  copy_inv st → copy_pos st ≤ length (flatten (copy_dst st)) → copy_wrote st st [].
Proof.
  intros Hinv Hpos. unfold copy_wrote. simpl.
  rewrite splice_nil by done. split_and!; try done; lia.
Qed.

Lemma copy_wrote_trans st st1 st2 a b :
  copy_wrote st st1 a → copy_wrote st1 st2 b → copy_wrote st st2 (a ++ b).
Proof.
  intros (Hc1 & _ & Hf1 & Hp1 & Ht1 & Hl1 & Hs1) (Hc2 & Hi2 & Hf2 & Hp2 & Ht2 & Hl2 & Hs2).
  rewrite Hf1, Hp1, length_splice in Hc2 by done.
  unfold copy_wrote. rewrite length_app.
  split_and!; try done; try lia.
  - rewrite Hf2, Hf1, Hp1. apply splice_splice. lia.
  - congruence.
Qed.

Lemma copy_iov_inner_0 fuel src0 src_offset st :
  copy_iov_inner fuel src0 src_offset 0 st = Done st.
Proof. by destruct fuel. Qed.

Lemma copy_pos_le st :
  copy_inv st → copy_pos st ≤ length (flatten (copy_dst st)).
Proof.
  destruct st as [done ds cnt off tc]. unfold copy_inv, copy_pos, copy_dst, flatten.
  simpl. intros [_ Hoff]. rewrite concat_app, length_app.
  destruct ds as [|d ds]; simpl; [lia|]. rewrite length_app. unfold iov_len in Hoff. lia.
Qed.

(** One iteration of the inner loop, on a state that satisfies the
    invariant: [n] bytes go to the current destination region. *)
Lemma copy_iov_inner_step fuel src0 soff slen done d rest cnt off tc :
  slen ≠ 0 → cnt ≠ 0%Z → off ≤ length d →
  soff + slen ≤ length src0 →
  let n := Nat.min (length d - off) slen in
  let d' := splice d off (take n (drop soff src0)) in
  copy_iov_inner (S fuel) src0 soff slen (CopySt done (d :: rest) cnt off tc) =
    if off + n =? length d
    then copy_iov_inner fuel src0 (soff + n) (slen - n)
           (CopySt (done ++ [d']) rest (cnt - 1) 0 (tc - n))
    else copy_iov_inner fuel src0 (soff + n) (slen - n)
           (CopySt done (d' :: rest) cnt (off + n) (tc - n)).
Proof.
  intros Hs Hc Hoff Hsrc n d'. cbn [copy_iov_inner dst_count dst_iov dst_offset to_copy dst_done].
  rewrite (proj2 (Nat.eqb_neq _ _) Hs), (proj2 (Z.eqb_neq _ _) Hc).
  unfold iov_len.
  assert (Hn : (if slen <? length d - off then slen else length d - off) = n).
  { unfold n. destruct (Nat.ltb_spec slen (length d - off)); lia. }
  rewrite Hn. rewrite memcpy_ok by lia. cbn [mbind outcome_bind].
  rewrite (proj2 (Nat.leb_le (off + n) (length d))) by lia.
  done.
Qed.

Lemma copy_iov_inner_ok fuel src0 : ∀ src_offset src_len st,
  copy_inv st →
  length (dst_iov st) < fuel →
  src_offset + src_len ≤ length src0 →
  src_len ≤ to_copy st →
  copy_pos st + src_len ≤ length (flatten (copy_dst st)) →
  ∃ st', copy_iov_inner fuel src0 src_offset src_len st = Done st' ∧
         copy_wrote st st' (take src_len (drop src_offset src0)).
Proof.
  induction fuel as [|fuel IH]; intros soff slen st Hinv Hfuel Hsrc Htc Hcap; [lia|].
  destruct (decide (slen = 0)) as [->|Hnz].
  { rewrite copy_iov_inner_0. eexists; split; [done|].
    rewrite take_0. by apply copy_wrote_nil, copy_pos_le. }
  destruct st as [done ds cnt off tc].
  destruct Hinv as [Hcnt Hoff]. unfold copy_pos, copy_dst, flatten in Hcap.
  cbn [dst_count dst_iov dst_offset to_copy dst_done] in *.
  rewrite concat_app, length_app in Hcap.
  destruct ds as [|d rest]; [simpl in Hcap; lia|].
  unfold iov_len in Hoff. cbn [length] in Hfuel.
  cbn [concat] in Hcap. rewrite length_app in Hcap.
  rewrite copy_iov_inner_step by (try done; simpl in Hcnt; lia).
  set (n := Nat.min (length d - off) slen).
  set (chunk := take n (drop soff src0)).
  assert (Hchunk : length chunk = n).
  { unfold chunk. rewrite length_take, length_drop. lia. }
  set (d' := splice d off chunk).
  assert (Hd' : length d' = length d) by (apply length_splice; lia).
  (* the state after this iteration, in either branch, has written [chunk] *)
  assert (Hstep : ∀ st1,
            copy_inv st1 →
            flatten (copy_dst st1) = flatten (done ++ [d'] ++ rest) →
            iov_len <$> copy_dst st1 = iov_len <$> (done ++ [d'] ++ rest) →
            copy_pos st1 = length (flatten done) + off + n →
            to_copy st1 = tc - n →
            length (dst_iov st1) ≤ S (length rest) →
            copy_wrote (CopySt done (d :: rest) cnt off tc) st1 chunk).
  { intros st1 Hi1 Hf1 Hs1 Hp1 Ht1 Hl1. unfold copy_wrote.
    rewrite Hf1, Hs1, Hp1, Ht1, Hchunk.
    unfold copy_pos, copy_dst, flatten.
    cbn [dst_count dst_iov dst_offset to_copy dst_done].
    split_and!; try done; try lia.
    - rewrite concat_app, length_app. simpl. rewrite length_app. lia.
    - rewrite !concat_app. simpl. rewrite app_nil_r.
      symmetry. by apply splice_middle; lia.
    - rewrite !fmap_app. simpl. unfold iov_len. by rewrite Hd'. }
  destruct (Nat.eqb_spec (off + n) (length d)) as [Hfull|Hpart].
  - (* the region is full: move to the next one *)
    set (st1 := CopySt (done ++ [d']) rest (cnt - 1) 0 (tc - n)).
    assert (Hw1 : copy_wrote (CopySt done (d :: rest) cnt off tc) st1 chunk).
    { apply Hstep; unfold copy_pos, copy_dst, flatten; simpl; try done.
      - split; simpl; [simpl in Hcnt; lia|]. destruct rest; [done|lia].
      - by rewrite <- app_assoc.
      - by rewrite <- app_assoc.
      - rewrite concat_app, length_app. simpl. rewrite app_nil_r. lia.
      - lia. }
    destruct (IH (soff + n) (slen - n) st1) as (st' & Hrun & Hw2).
    + apply Hw1.
    + simpl. lia.
    + lia.
    + simpl. lia.
    + destruct Hw1 as (_ & _ & Hf1 & Hp1 & _). rewrite Hf1, Hp1, length_splice.
      * unfold copy_pos, copy_dst, flatten. simpl. rewrite concat_app, length_app.
        simpl. rewrite length_app. lia.
      * unfold copy_pos, copy_dst, flatten. simpl. rewrite concat_app, length_app.
        simpl. rewrite length_app. lia.
    + exists st'. split; [done|].
      replace (take slen (drop soff src0))
        with (chunk ++ take (slen - n) (drop (soff + n) src0)).
      * by eapply copy_wrote_trans.
      * unfold chunk. rewrite take_drop_chunks. f_equal. lia.
  - (* the source region is exhausted *)
    assert (Hn : n = slen) by lia.
    rewrite Hn, Nat.sub_diag, copy_iov_inner_0. eexists; split; [done|].
    replace (take slen (drop soff src0)) with chunk by (unfold chunk; by rewrite Hn).
    rewrite <- Hn. apply Hstep; unfold copy_pos, copy_dst, flatten; simpl; try done.
    + split; simpl; [done|]. unfold iov_len. lia.
    + lia.
Qed.

Lemma copy_iov_outer_ok fuel src_iov : ∀ st,
  copy_inv st →
  length (dst_iov st) < fuel →
  to_copy st ≤ length (flatten src_iov) →
  copy_pos st + to_copy st ≤ length (flatten (copy_dst st)) →
  ∃ st', copy_iov_outer fuel src_iov (Z.of_nat (length src_iov)) st = Done st' ∧
         copy_wrote st st' (take (to_copy st) (flatten src_iov)) ∧
         to_copy st' = 0.
Proof.
  induction src_iov as [|s src_iov IH]; intros st Hinv Hfuel Hsrc Hcap.
  - simpl in Hsrc. assert (Htc : to_copy st = 0) by lia.
    exists st. simpl. rewrite Htc. simpl. split_and!; try done.
    by apply copy_wrote_nil, copy_pos_le.
  - destruct (decide (to_copy st = 0)) as [Htc|Htc].
    { exists st. cbn [copy_iov_outer]. rewrite Htc. simpl. split_and!; try done.
      by apply copy_wrote_nil, copy_pos_le. }
    cbn [copy_iov_outer].
    rewrite (proj2 (Nat.eqb_neq _ _) Htc).
    rewrite (proj2 (Z.eqb_neq (Z.of_nat (length (s :: src_iov))) 0)) by (simpl; lia).
    unfold iov_len.
    set (src_len := if to_copy st <? length s then to_copy st else length s).
    assert (Hlen : src_len = Nat.min (length s) (to_copy st)).
    { unfold src_len. destruct (Nat.ltb_spec (to_copy st) (length s)); lia. }
    destruct (copy_iov_inner_ok fuel s 0 src_len st) as (st1 & Hrun & Hw1);
      try done; try lia.
    rewrite Hrun. cbn [mbind outcome_bind].
    assert (Hl1 : length (take src_len (drop 0 s)) = src_len).
    { rewrite length_take, length_drop. lia. }
    pose proof Hw1 as (_ & Hi1 & Hf1 & Hp1 & Ht1 & Hd1 & _).
    rewrite Hl1 in Hp1, Ht1.
    replace (Z.of_nat (length (s :: src_iov)) - 1)%Z
      with (Z.of_nat (length src_iov)) by (simpl; lia).
    simpl in Hsrc. rewrite length_app in Hsrc.
    destruct (IH st1) as (st' & Hrun' & Hw2 & Hz); try done; try lia.
    { rewrite Hf1, length_splice; lia. }
    exists st'. split_and!; try done.
    replace (take (to_copy st) (flatten (s :: src_iov)))
      with (take src_len (drop 0 s) ++ take (to_copy st1) (flatten src_iov)).
    + by eapply copy_wrote_trans.
    + unfold flatten. simpl. rewrite take_app, drop_0, Ht1. f_equal.
      * destruct (decide (to_copy st ≤ length s)).
        -- f_equal. lia.
        -- rewrite !take_ge; [done|lia|lia].
      * f_equal. lia.
Qed.

(** The inner loop never runs out of fuel when given more fuel than there
    are destination regions left, whatever the state; and it never moves
    [dst_iov] backwards. *)
Lemma copy_iov_inner_fuel fuel src0 : ∀ src_offset src_len st,
  length (dst_iov st) < fuel →
  match copy_iov_inner fuel src0 src_offset src_len st with
  | Done st' => length (dst_iov st') ≤ length (dst_iov st)
  | OutOfFuel => False
  | _ => True
  end.
Proof.
  induction fuel as [|fuel IH]; intros soff slen st Hfuel; [lia|].
  destruct (decide (slen = 0)) as [->|Hnz]; [by rewrite copy_iov_inner_0|].
  cbn [copy_iov_inner]. rewrite (proj2 (Nat.eqb_neq _ _) Hnz).
  destruct (dst_count st =? 0)%Z; [done|].
  destruct (dst_iov st) as [|d rest] eqn:Hds; [done|].
  set (dst_len := if slen <? iov_len d - dst_offset st then slen
                  else iov_len d - dst_offset st).
  destruct (memcpy d (dst_offset st) src0 soff dst_len) as [d'| | |] eqn:Hcp;
    cbn [mbind outcome_bind]; try done.
  { destruct (Nat.leb_spec (dst_offset st + dst_len) (iov_len d)) as [Hle|Hgt];
      cbn [negb]; [|done].
    destruct (Nat.eqb_spec (dst_offset st + dst_len) (iov_len d)) as [Heq|Hne].
    - specialize (IH (soff + dst_len) (slen - dst_len)
        (CopySt (dst_done st ++ [d']) rest (dst_count st - 1) 0 (to_copy st - dst_len))).
      cbn [dst_iov] in IH. cbn [length] in Hfuel.
      destruct (copy_iov_inner fuel _ _ _ _); try done; [|apply IH; lia].
      cbn [length]. etrans; [apply IH; lia|lia].
    - assert (Hall : dst_len = slen).
      { unfold dst_len in *. destruct (Nat.ltb_spec slen (iov_len d - dst_offset st)); lia. }
      rewrite Hall, Nat.sub_diag, copy_iov_inner_0. simpl. lia. }
  unfold memcpy in Hcp. by destruct (_ && _).
Qed.

Lemma copy_iov_outer_fuel fuel src_iov : ∀ src_count st,
  length (dst_iov st) < fuel →
  copy_iov_outer fuel src_iov src_count st ≠ OutOfFuel.
Proof.
  induction src_iov as [|s src_iov IH]; intros cnt st Hfuel; cbn [copy_iov_outer].
  - destruct (to_copy st =? 0); [done|]. by destruct (cnt =? 0)%Z.
  - destruct (to_copy st =? 0); [done|]. destruct (cnt =? 0)%Z; [done|].
    set (src_len := if to_copy st <? iov_len s then to_copy st else iov_len s).
    pose proof (copy_iov_inner_fuel fuel s 0 src_len st Hfuel) as Hin.
    destruct (copy_iov_inner fuel s 0 src_len st) as [st1| | |];
      cbn [mbind outcome_bind]; try done.
    apply IH. lia.
Qed.

(** [copy_iov] with the fuel it is run with is total: it never stops for
    lack of fuel, on any input. *)
Lemma copy_iov_total src_iov src_count dst_iov dst_count to_copy :
  copy_iov (copy_iov_fuel dst_iov) src_iov src_count dst_iov dst_count to_copy
  ≠ OutOfFuel.
Proof.
  unfold copy_iov, copy_iov_fuel.
  pose proof (copy_iov_outer_fuel (S (length dst_iov)) src_iov src_count
                (CopySt [] dst_iov dst_count 0 to_copy)) as Hout.
  destruct (copy_iov_outer _ _ _ _); cbn [mbind outcome_bind]; try done.
  intros _. apply Hout; [simpl; lia | done].
Qed.

(** The common core of the statements on [copy_iov]: with enough source
    bytes and enough destination room, it returns, the destination keeps
    its shape, and its flattened bytes are the old ones with the first
    [n] bytes of the flattened source written over the first [n]. *)
Lemma copy_iov_ok fuel src dst n :
  n ≤ iov_length src → n ≤ iov_length dst → length dst < fuel →
  ∃ dst', copy_iov fuel src (Z.of_nat (length src)) dst (Z.of_nat (length dst)) n
          = Done dst' ∧
          iov_len <$> dst' = iov_len <$> dst ∧
          flatten dst' = take n (flatten src) ++ drop n (flatten dst).
Proof.
  intros Hsrc Hdst Hfuel. rewrite iov_length_flatten in Hsrc, Hdst.
  unfold copy_iov.
  destruct (copy_iov_outer_ok fuel src (CopySt [] dst (Z.of_nat (length dst)) 0 n))
    as (st' & Hrun & Hw & _); try done.
  { split; simpl; [done|]. destruct dst; [done|lia]. }
  rewrite Hrun. cbn [mbind outcome_bind]. eexists; split; [done|].
  destruct Hw as (_ & _ & Hf & _ & _ & _ & Hs).
  split; [done|]. rewrite Hf. unfold splice, copy_pos, copy_dst. simpl.
  rewrite length_take. do 2 f_equal. lia.
Qed.

(** ** The claims on the copy engine *)

(** C5.  For every chain whose "out" region lengths sum to at most the
    capacity of the destination buffer, [copy_from_iov] returns, and the
    first sum-of-lengths bytes of the buffer are then the concatenation of
    the out regions' bytes in region order (the rest of the buffer is as
    before). *)
Theorem copy_from_iov_flattens (elem : VuVirtqElement) (mem : list byte) :
  iov_length (out_sg elem) ≤ length mem →
  ∃ mem', copy_from_iov mem (out_num elem) (out_sg elem) = Done mem' ∧
          take (iov_length (out_sg elem)) mem' = flatten (out_sg elem) ∧
          length mem' = length mem ∧
          drop (iov_length (out_sg elem)) mem' = drop (iov_length (out_sg elem)) mem.
Proof.
  intros Hcap. rewrite iov_length_flatten in *.
  unfold copy_from_iov, out_num. rewrite copy_from_iov_loop_ok by done.
  eexists; split; [done|]. split_and!.
  - by apply take_splice_0.
  - by apply length_splice.
  - apply drop_splice_0.
Qed.

Lemma copy_from_iov_flattens_witness :
  ∃ mem', copy_from_iov ex_mem 3 ex_src = Done mem' ∧
          take 5 mem' = [x01; x02; x03; x04; x05]%byte ∧
          length mem' = 8 ∧
          drop 5 mem' = drop 5 ex_mem.
Proof.
  apply (copy_from_iov_flattens (VuElem 0 ex_src []) ex_mem). vm_compute. lia.
Defined.

(** C1.  Whenever the source regions hold at least [L] bytes and the
    destination regions have room for at least [L], [copy_iov] with
    [to_copy = L] returns a destination whose first [L] flattened bytes are
    the first [L] bytes of the flattened source, however the two sides are
    cut into regions. *)
Theorem copy_iov_shape_independent (src dst : list iovec) (L fuel : nat) :
  L ≤ iov_length src → L ≤ iov_length dst → length dst < fuel →
  ∃ dst', copy_iov fuel src (Z.of_nat (length src)) dst (Z.of_nat (length dst)) L
          = Done dst' ∧
          take L (flatten dst') = take L (flatten src).
Proof.
  intros Hsrc Hdst Hfuel.
  destruct (copy_iov_ok fuel src dst L) as (dst' & Hrun & _ & Hflat); try done.
  exists dst'. split; [done|]. rewrite Hflat.
  rewrite take_app_le by (rewrite length_take, <- iov_length_flatten; lia).
  rewrite take_take. f_equal. lia.
Qed.

Lemma copy_iov_shape_independent_witness :
  ∃ dst', copy_iov 5 ex_src 3 ex_dst 4 4 = Done dst' ∧
          take 4 (flatten dst') = [x01; x02; x03; x04]%byte.
Proof.
  apply (copy_iov_shape_independent ex_src ex_dst 4 5); vm_compute; lia.
Defined.

(** C10.  For finite region lists with at least [to_copy] source bytes and
    at least [to_copy] bytes of destination room (regions of length zero
    allowed on both sides), [copy_iov] terminates within one inner
    iteration per destination region plus one, no assertion fires, and no
    [memcpy] leaves the region it reads or the region it writes: the run
    ends in [Done], and the destination regions keep their lengths. *)
Theorem copy_iov_safe (src dst : list iovec) (to_copy fuel : nat) :
  to_copy ≤ iov_length src → to_copy ≤ iov_length dst → length dst < fuel →
  ∃ dst', copy_iov fuel src (Z.of_nat (length src)) dst (Z.of_nat (length dst)) to_copy
          = Done dst' ∧
          iov_len <$> dst' = iov_len <$> dst.
Proof.
  intros Hsrc Hdst Hfuel.
  destruct (copy_iov_ok fuel src dst to_copy) as (dst' & Hrun & Hshape & _); try done.
  by exists dst'.
Qed.

Lemma copy_iov_safe_witness :
  ∃ dst', copy_iov (copy_iov_fuel ex_dst) ex_src 3 ex_dst 4 5 = Done dst' ∧
          iov_len <$> dst' = [1; 0; 3; 2].
Proof.
  apply (copy_iov_safe ex_src ex_dst 5 (copy_iov_fuel ex_dst)); vm_compute; lia.
Defined.

(** ** Stepping through monadic code *)

Lemma bind_ret {S A B} (a : A) (k : A → M S B) (s : S) :
  (mret a ≫= k) s = k a s.
Proof. done. Qed.

Lemma bind_lift_done {S A B} (a : A) (k : A → M S B) (s : S) :
  (m_lift (Done a) ≫= k) s = k a s.
Proof. done. Qed.

Lemma bind_modify {S B} (f : S → S) (k : unit → M S B) (s : S) :
  (m_modify f ≫= k) s = k tt (f s).
Proof. done. Qed.

Lemma bind_get {S B} (k : S → M S B) (s : S) :
  (m_get ≫= k) s = k s s.
Proof. done. Qed.

Lemma bind_assert_true {S B} (k : unit → M S B) (s : S) :
  (m_assert true ≫= k) s = k tt s.
Proof. done. Qed.

Lemma bind_assert_false {S B} (k : unit → M S B) (s : S) :
  (m_assert false ≫= k) s = (AssertFail, s).
Proof. done. Qed.

Lemma bind_deref {B} (p : loc) (r : fv_QueueInfo) (k : fv_QueueInfo → M world B) (w : world) :
  heap w !! p = Some r → (deref p ≫= k) w = k r w.
Proof. intros Hp. unfold deref, mbind, M_bind. by rewrite Hp. Qed.

Lemma bind_bind {S A B C} (m : M S A) (k : A → M S B) (k' : B → M S C) (s : S) :
  ((m ≫= k) ≫= k') s = (m ≫= λ a, k a ≫= k') s.
Proof. unfold mbind, M_bind. by destruct (m s) as [[] ?]. Qed.

Lemma bind_lift_fail {S A B} (o : outcome A) (k : A → M S B) (s : S) :
  (∀ a, o ≠ Done a) →
  (m_lift o ≫= k) s =
    (match o with Done _ | AssertFail => AssertFail
     | OutOfBounds => OutOfBounds | OutOfFuel => OutOfFuel end, s).
Proof. intros Hf. destruct o; try done. by destruct (Hf a). Qed.

Ltac mstep :=
  repeat first
    [ rewrite bind_bind | rewrite bind_ret | rewrite bind_lift_done
    | rewrite bind_modify | rewrite bind_get
    | rewrite bind_assert_true | rewrite bind_assert_false ].

(** ** The reply path *)

Section send_facts.
Context `{FuseAbi}.

(** C4.  A reply whose header carries [unique = 0] is stopped by an
    assertion: [virtio_send_msg] aborts in the state it was called in, so
    nothing was copied to the "in" regions, nothing pushed and nobody
    notified. *)
Theorem virtio_send_msg_unique_zero (se : fuse_session) (ch : option fuse_chan)
    (iov0 : iovec) (rest : list iovec) (w : world) :
  out_header_unique iov0 = 0%N →
  virtio_send_msg se ch (iov0 :: rest) w = (AssertFail, w).
Proof.
  intros Hz. unfold virtio_send_msg.
  replace (1 <=? Z.of_nat (length (iov0 :: rest)))%Z with true
    by (symmetry; apply Z.leb_le; simpl; lia).
  change ((iov0 :: rest) !! 0) with (Some iov0). cbn [from_option]. mstep.
  destruct (sizeof_fuse_out_header <=? iov_len iov0); mstep; [|done].
  rewrite Hz. by mstep.
Qed.

(** The run of [virtio_send_msg] up to the size checks, for a reply with a
    header, a non-zero [unique], a channel and a chain in progress. *)
Lemma virtio_send_msg_checked (se : fuse_session) (c : fuse_chan)
    (iov0 : iovec) (rest : list iovec) (w : world)
    (qi : fv_QueueInfo) (elem : VuVirtqElement) :
  sizeof_fuse_out_header ≤ iov_len iov0 →
  out_header_unique iov0 ≠ 0%N →
  heap w !! ch_qi c = Some qi →
  qe qi = Some elem →
  virtio_send_msg se (Some c) (iov0 :: rest) w =
    let iov := iov0 :: rest in
    let tosend_len := iov_length iov in
    let in_len := iov_length (in_sg elem) in
    if in_len <? sizeof_fuse_out_header then (Done (- E2BIG)%Z, w) else
    if in_len <? tosend_len then (Done (- E2BIG)%Z, w) else
    match copy_iov (copy_iov_fuel (in_sg elem)) iov (Z.of_nat (length iov))
                   (in_sg elem) (Z.of_nat (in_num elem)) tosend_len with
    | Done in_sg' =>
        (Done 0%Z,
         World (vud_qi w)
               (<[ch_qi c := set_qe (Some (set_in_sg in_sg' elem)) qi]> (heap w))
               (vq_kick_fd w)
               (log w ++ [EvCopyIov (index elem) tosend_len;
                          EvQueuePush (qidx qi) (index elem) tosend_len;
                          EvQueueNotify (qidx qi)]))
    | AssertFail => (AssertFail, emit (EvCopyIov (index elem) tosend_len) w)
    | OutOfBounds => (OutOfBounds, emit (EvCopyIov (index elem) tosend_len) w)
    | OutOfFuel => (OutOfFuel, emit (EvCopyIov (index elem) tosend_len) w)
    end.
Proof.
  intros Hhdr Huniq Hqi Hqe. unfold virtio_send_msg.
  replace (1 <=? Z.of_nat (length (iov0 :: rest)))%Z with true
    by (symmetry; apply Z.leb_le; simpl; lia).
  change ((iov0 :: rest) !! 0) with (Some iov0). cbn [from_option]. mstep.
  rewrite (proj2 (Nat.leb_le _ _) Hhdr). mstep.
  rewrite (proj2 (N.eqb_neq _ _) Huniq). cbn [negb]. mstep.
  rewrite (bind_deref _ qi) by done. rewrite Hqe. cbn [from_option]. mstep.
  cbv zeta.
  destruct (iov_length (in_sg elem) <? sizeof_fuse_out_header); [done|].
  destruct (iov_length (in_sg elem) <? iov_length (iov0 :: rest)); [done|].
  mstep.
  destruct (copy_iov _ _ _ _ _ _) as [in_sg'| | |]; try done.
  mstep. unfold emit, set_heap. cbn [vud_qi heap vq_kick_fd log].
  by rewrite <- !app_assoc.
Qed.

(** C3, as the code has it.  For a reply with a header and a non-zero
    [unique], sent on a channel with a chain in progress: when the "in"
    room of the chain is smaller than the reply header or smaller than the
    whole reply, [virtio_send_msg] returns [-E2BIG] in the state it was
    called in: no copy, no push, no notification. *)
Theorem virtio_send_msg_too_big (se : fuse_session) (c : fuse_chan)
    (iov0 : iovec) (rest : list iovec) (w : world)
    (qi : fv_QueueInfo) (elem : VuVirtqElement) :
  sizeof_fuse_out_header ≤ iov_len iov0 →
  out_header_unique iov0 ≠ 0%N →
  heap w !! ch_qi c = Some qi →
  qe qi = Some elem →
  iov_length (in_sg elem) < sizeof_fuse_out_header ∨
  iov_length (in_sg elem) < iov_length (iov0 :: rest) →
  virtio_send_msg se (Some c) (iov0 :: rest) w = (Done (- E2BIG)%Z, w).
Proof.
  intros Hhdr Huniq Hqi Hqe Hsmall.
  rewrite (virtio_send_msg_checked se c iov0 rest w qi elem) by done. cbv zeta.
  destruct (Nat.ltb_spec (iov_length (in_sg elem)) sizeof_fuse_out_header); [done|].
  destruct (Nat.ltb_spec (iov_length (in_sg elem)) (iov_length (iov0 :: rest))); [done|].
  lia.
Qed.

(** C6.  On the success path (a reply with a header and a non-zero
    [unique], a chain in progress whose "in" room holds the reply header
    and the whole reply) [virtio_send_msg] returns 0; the "in" regions of
    the chain keep their lengths and start with the bytes of the reply;
    after the copy the chain is pushed with the total reply length and the
    guest is notified, in this order. *)
Theorem virtio_send_msg_success (se : fuse_session) (c : fuse_chan)
    (iov0 : iovec) (rest : list iovec) (w : world)
    (qi : fv_QueueInfo) (elem : VuVirtqElement) :
  sizeof_fuse_out_header ≤ iov_len iov0 →
  out_header_unique iov0 ≠ 0%N →
  heap w !! ch_qi c = Some qi →
  qe qi = Some elem →
  sizeof_fuse_out_header ≤ iov_length (in_sg elem) →
  iov_length (iov0 :: rest) ≤ iov_length (in_sg elem) →
  let tosend_len := iov_length (iov0 :: rest) in
  ∃ in_sg',
    virtio_send_msg se (Some c) (iov0 :: rest) w =
      (Done 0%Z,
       World (vud_qi w)
             (<[ch_qi c := set_qe (Some (set_in_sg in_sg' elem)) qi]> (heap w))
             (vq_kick_fd w)
             (log w ++ [EvCopyIov (index elem) tosend_len;
                        EvQueuePush (qidx qi) (index elem) tosend_len;
                        EvQueueNotify (qidx qi)])) ∧
    iov_len <$> in_sg' = iov_len <$> in_sg elem ∧
    take tosend_len (flatten in_sg') = flatten (iov0 :: rest).
Proof.
  intros Hhdr Huniq Hqi Hqe Hroom1 Hroom2 tosend_len.
  rewrite (virtio_send_msg_checked se c iov0 rest w qi elem) by done. cbv zeta.
  destruct (Nat.ltb_spec (iov_length (in_sg elem)) sizeof_fuse_out_header); [lia|].
  destruct (Nat.ltb_spec (iov_length (in_sg elem)) (iov_length (iov0 :: rest))); [lia|].
  destruct (copy_iov_ok (copy_iov_fuel (in_sg elem)) (iov0 :: rest) (in_sg elem) tosend_len)
    as (in_sg' & Hrun & Hshape & Hflat); try done.
  { unfold copy_iov_fuel. lia. }
  unfold in_num. fold tosend_len. rewrite Hrun.
  exists in_sg'. split_and!; try done.
  rewrite Hflat. unfold tosend_len. rewrite iov_length_flatten.
  rewrite firstn_all. by rewrite take_app_length.
Qed.

End send_facts.

Lemma virtio_send_msg_unique_zero_witness :
  virtio_send_msg (H := linux_abi) ex_se (Some ex_ch) ex_notify (ex_world ex_elem)
  = (AssertFail, ex_world ex_elem).
Proof.
  apply (virtio_send_msg_unique_zero (H := linux_abi)). reflexivity.
Defined.

Lemma virtio_send_msg_too_big_witness :
  virtio_send_msg (H := linux_abi) ex_se (Some ex_ch) ex_reply (ex_world ex_elem_small)
  = (Done (- E2BIG)%Z, ex_world ex_elem_small).
Proof.
  apply (virtio_send_msg_too_big (H := linux_abi) ex_se ex_ch ex_reply_hdr
           [[xb1; xb2; xb3]%byte] (ex_world ex_elem_small)
           (ex_qi ex_elem_small) ex_elem_small).
  - vm_compute. lia.
  - by vm_compute.
  - reflexivity.
  - reflexivity.
  - left. vm_compute. lia.
Defined.

(** C3, as the design document has it, does not ask for a non-zero
    [unique].  A reply with a complete header and [unique = 0], sent for a
    chain with 8 bytes of "in" room (less than the 16 of the header), does
    not get [-E2BIG]: the assertion on [unique] comes first and aborts. *)
Lemma virtio_send_msg_too_big_counterexample :
  ex_notify !! 0 = Some ex_notify_hdr ∧
  sizeof_fuse_out_header (FuseAbi := linux_abi) ≤ iov_len ex_notify_hdr ∧
  heap (ex_world ex_elem_small) !! ch_qi ex_ch
    = Some (ex_qi ex_elem_small) ∧
  iov_length (in_sg ex_elem_small) < sizeof_fuse_out_header (FuseAbi := linux_abi) ∧
  iov_length (in_sg ex_elem_small) < iov_length ex_notify ∧
  virtio_send_msg (H := linux_abi) ex_se (Some ex_ch) ex_notify (ex_world ex_elem_small)
    = (AssertFail, ex_world ex_elem_small) ∧
  fst (virtio_send_msg (H := linux_abi) ex_se (Some ex_ch) ex_notify
         (ex_world ex_elem_small)) ≠ Done (- E2BIG)%Z.
Proof.
  split_and!; try (vm_compute; lia); try reflexivity.
  by vm_compute.
Qed.

Lemma virtio_send_msg_success_witness :
  ∃ in_sg',
    virtio_send_msg (H := linux_abi) ex_se (Some ex_ch) ex_reply (ex_world ex_elem) =
      (Done 0%Z,
       World [None; Some 1%positive]
             (<[1%positive := ex_qi (VuElem 5 [] in_sg')]>
                (heap (ex_world ex_elem)))
             (vq_kick_fd (ex_world ex_elem))
             [EvCopyIov 5 19; EvQueuePush 1%Z 5 19; EvQueueNotify 1%Z]) ∧
    iov_len <$> in_sg' = [10; 14] ∧
    take 19 (flatten in_sg') = flatten ex_reply.
Proof.
  apply (virtio_send_msg_success (H := linux_abi) ex_se ex_ch ex_reply_hdr
           [[xb1; xb2; xb3]%byte] (ex_world ex_elem) (ex_qi ex_elem) ex_elem).
  - vm_compute. lia.
  - by vm_compute.
  - reflexivity.
  - reflexivity.
  - vm_compute. lia.
  - vm_compute. lia.
Defined.

(** ** The queue worker *)

Section worker_facts.
Context `{FuseAbi}.
Variable malloc : nat → option (list byte).
Variable se : fuse_session.

(** [fv_queue_thread_elem] by cases on the buffer and on the allocation. *)
Lemma fv_queue_thread_elem_eq (elem : VuVirtqElement) (t : thread_st) :
  fv_queue_thread_elem malloc se elem t =
    match fbuf_mem t with
    | Some mem => elem_body se elem mem t
    | None =>
        let t1 := after_malloc malloc se t in
        match malloc (bufsize se) with
        | None => (AssertFail, t1)
        | Some mem =>
            if sizeof_fuse_in_header <? bufsize se
            then elem_body se elem mem t1
            else (AssertFail, t1)
        end
    end.
Proof.
  assert (Hbody : ∀ mem t1,
    (m_assert (negb (iov_length (out_sg elem) <? sizeof_fuse_in_header));;
     m_assert (negb (bufsize se <? iov_length (out_sg elem)));;
     m_modify (thr_emit (EvCopyFromIov (index elem) (iov_length (out_sg elem))));;
     mem' ← m_lift (copy_from_iov mem (out_num elem) (out_sg elem));
     m_modify (set_fbuf_mem (Some mem'));;
     m_modify (set_fbuf_size (iov_length (out_sg elem)));;
     m_modify (thr_emit (EvProcessBuf (index elem)
                           (take (iov_length (out_sg elem)) mem')));;
     m_modify (set_thr_qe None);;
     m_modify (thr_emit (EvFreeElem (index elem)))) t1
    = elem_body se elem mem t1).
  { intros mem t1. unfold elem_body.
    destruct (iov_length (out_sg elem) <? sizeof_fuse_in_header); cbn [negb]; mstep; [done|].
    destruct (bufsize se <? iov_length (out_sg elem)); cbn [negb]; mstep; [done|].
    destruct (copy_from_iov mem (out_num elem) (out_sg elem)); by mstep. }
  unfold fv_queue_thread_elem. mstep.
  destruct (fbuf_mem t) as [mem|]; mstep; [apply Hbody|].
  cbv zeta. fold (after_malloc malloc se t).
  destruct (malloc (bufsize se)) as [mem|]; cbn [from_option]; mstep; [|done].
  destruct (sizeof_fuse_in_header <? bufsize se); mstep; [apply Hbody|done].
Qed.

(** C2.  A popped chain whose total "out" length is below the size of the
    request header, or above [se->bufsize], stops the worker at an
    assertion.  Up to there the worker has at most allocated its request
    buffer: it has not copied the chain (no [EvCopyFromIov], buffer
    contents untouched) and not called the session (no [EvProcessBuf]). *)
Theorem fv_queue_thread_elem_rejects (elem : VuVirtqElement) (t : thread_st) :
  iov_length (out_sg elem) < sizeof_fuse_in_header ∨
  bufsize se < iov_length (out_sg elem) →
  fv_queue_thread_elem malloc se elem t =
    (AssertFail,
     match fbuf_mem t with Some _ => t | None => after_malloc malloc se t end).
Proof.
  intros Hbad. rewrite fv_queue_thread_elem_eq.
  assert (Hbody : ∀ mem t1, elem_body se elem mem t1 = (AssertFail, t1)).
  { intros mem t1. unfold elem_body.
    destruct (Nat.ltb_spec (iov_length (out_sg elem)) sizeof_fuse_in_header); [done|].
    destruct (Nat.ltb_spec (bufsize se) (iov_length (out_sg elem))); [done|lia]. }
  destruct (fbuf_mem t) as [mem|]; [apply Hbody|]. cbv zeta.
  destruct (malloc (bufsize se)) as [mem|]; [|done].
  destruct (sizeof_fuse_in_header <? bufsize se); [apply Hbody|done].
Qed.

(** *** The request buffer *)

Hypothesis malloc_size : ∀ n mem, malloc n = Some mem → length mem = n.

Lemma count_malloc_app l l' :
  count_malloc (l ++ l') = count_malloc l + count_malloc l'.
Proof. unfold count_malloc. by rewrite List.filter_app, length_app. Qed.

Lemma buf_inv_weaken t : buf_inv se t → buf_inv_weak se t.
Proof.
  intros [[Hlog Hmem]|(post & mem & Hlog & Hcnt & Hmem & Hsize)]; split.
  - by left.
  - intros mem. by rewrite Hmem.
  - right. by exists post.
  - intros mem'. rewrite Hmem. by intros [= <-].
Qed.

(** A chain handled with the buffer in place: the buffer stays, with its
    size, and no allocation is logged. *)
Lemma elem_body_inv elem mem t :
  buf_allocated se t → fbuf_mem t = Some mem →
  match elem_body se elem mem t with
  | (Done _, t') => buf_allocated se t'
  | (_, t') => buf_inv_weak se t'
  end.
Proof.
  intros Halloc Hmem. pose proof Halloc as (post & mem0 & Hlog & Hcnt & Hmem0 & Hsize).
  assert (mem0 = mem) as -> by congruence.
  unfold elem_body.
  destruct (Nat.ltb_spec (iov_length (out_sg elem)) sizeof_fuse_in_header);
    [by apply buf_inv_weaken; right|].
  destruct (Nat.ltb_spec (bufsize se) (iov_length (out_sg elem)));
    [by apply buf_inv_weaken; right|].
  unfold copy_from_iov, out_num.
  rewrite copy_from_iov_loop_ok by (rewrite <- iov_length_flatten; lia).
  exists (post ++ [EvCopyFromIov (index elem) (iov_length (out_sg elem));
                   EvProcessBuf (index elem)
                     (take (iov_length (out_sg elem))
                        (splice mem 0 (flatten (out_sg elem))));
                   EvFreeElem (index elem)]).
  eexists. simpl. rewrite Hlog. split_and!; [|by rewrite count_malloc_app, Hcnt|done|].
  - simpl. by rewrite <- !app_assoc.
  - rewrite length_splice; [done|]. rewrite <- iov_length_flatten. simpl. lia.
Qed.

Lemma fv_queue_thread_elem_inv elem t :
  buf_inv se t →
  match fv_queue_thread_elem malloc se elem t with
  | (Done _, t') => buf_allocated se t'
  | (_, t') => buf_inv_weak se t'
  end.
Proof.
  intros Hinv. rewrite fv_queue_thread_elem_eq.
  destruct Hinv as [[Hlog Hmem]|Halloc].
  - rewrite Hmem. cbv zeta.
    assert (Hlog1 : thr_log (after_malloc malloc se t) = [EvMalloc (bufsize se)]).
    { unfold after_malloc. simpl. by rewrite Hlog. }
    assert (Hmem1 : fbuf_mem (after_malloc malloc se t) = malloc (bufsize se)) by done.
    destruct (malloc (bufsize se)) as [mem|] eqn:Hm.
    + assert (Halloc : buf_allocated se (after_malloc malloc se t)).
      { exists [], mem. split_and!; try done. by apply malloc_size. }
      destruct (sizeof_fuse_in_header <? bufsize se);
        [by apply elem_body_inv | by apply buf_inv_weaken; right].
    + split; [right; by exists []|]. intros mem. by rewrite Hmem1.
  - pose proof Halloc as (post & mem & _ & _ & Hmem & _). rewrite Hmem.
    by apply elem_body_inv.
Qed.

Lemma fv_queue_thread_drain_inv chains : ∀ t,
  buf_inv se t →
  match fv_queue_thread_drain malloc se chains t with
  | (Done _, t') => buf_inv se t' ∧ (chains ≠ [] → buf_allocated se t')
  | (_, t') => buf_inv_weak se t'
  end.
Proof.
  induction chains as [|elem chains IH]; intros t Hinv; [done|].
  cbn [fv_queue_thread_drain]. unfold mbind, M_bind.
  pose proof (fv_queue_thread_elem_inv elem t Hinv) as Helem.
  destruct (fv_queue_thread_elem malloc se elem t) as [[[]| | |] t1]; try done.
  specialize (IH t1 (or_intror Helem)).
  destruct chains as [|elem2 chains]; [by split; [right|]|].
  destruct (fv_queue_thread_drain malloc se (elem2 :: chains) t1)
    as [[[]| | |] t2]; try done.
  destruct IH as [Hinv2 Hne]. split; [done|]. intros _. by apply Hne.
Qed.

Lemma fv_queue_thread_loop_inv wakes : ∀ t,
  buf_inv se t →
  match fv_queue_thread_loop malloc se wakes t with
  | (Done _, t') => buf_inv se t'
  | (_, t') => buf_inv_weak se t'
  end.
Proof.
  induction wakes as [|w wakes IH]; intros t Hinv; [done|].
  cbn [fv_queue_thread_loop].
  destruct (wk_ppoll w) as [| |poll_res revents]; [by apply IH|done|].
  destruct (poll_res =? -1)%Z; [done|].
  destruct (poll_res =? 1)%Z; mstep; [|by apply buf_inv_weaken].
  destruct (negb (Z.land revents _ =? 0)%Z); [done|].
  destruct (negb (Z.land revents POLLIN =? 0)%Z); mstep; [|by apply buf_inv_weaken].
  destruct (negb (wk_eventfd_ok w)); [done|].
  destruct (wk_out_bytes w =? 0); [by apply IH|].
  unfold mbind, M_bind.
  pose proof (fv_queue_thread_drain_inv (wk_chains w) t Hinv) as Hdrain.
  destruct (fv_queue_thread_drain malloc se (wk_chains w) t) as [[[]| | |] t1]; try done.
  apply IH, Hdrain.
Qed.

(** On every script: either the worker handled no chain (it did nothing,
    or only the final [free]), or the first thing it did was the
    allocation of the request buffer, of [se->bufsize] bytes, and it never
    allocated again; the buffer it holds has [se->bufsize] bytes. *)
Lemma fv_queue_thread_buf_inv_run (wakes : list wake) (t : thread_st) :
  thr_log t = [] →
  let t' := (fv_queue_thread malloc se wakes t).2 in
  (thr_log t' = [] ∨ thr_log t' = [EvFreeBuf] ∨
   ∃ post, thr_log t' = EvMalloc (bufsize se) :: post ∧ count_malloc post = 0) ∧
  (∀ i req, EvProcessBuf i req ∈ thr_log t' → count_malloc (thr_log t') = 1) ∧
  (∀ mem, fbuf_mem t' = Some mem → length mem = bufsize se).
Proof.
  intros Hlog.
  assert (Hweak : ∀ t1,
    (thr_log t1 = [] ∨ thr_log t1 = [EvFreeBuf] ∨
     ∃ post, thr_log t1 = EvMalloc (bufsize se) :: post ∧ count_malloc post = 0) →
    (∀ mem, fbuf_mem t1 = Some mem → length mem = bufsize se) →
    (thr_log t1 = [] ∨ thr_log t1 = [EvFreeBuf] ∨
     ∃ post, thr_log t1 = EvMalloc (bufsize se) :: post ∧ count_malloc post = 0) ∧
    (∀ i req, EvProcessBuf i req ∈ thr_log t1 → count_malloc (thr_log t1) = 1) ∧
    (∀ mem, fbuf_mem t1 = Some mem → length mem = bufsize se)).
  { intros t1 Hl Hm. split_and!; try done. intros i req Hin.
    destruct Hl as [Hl|[Hl|(post & Hl & Hc)]]; rewrite Hl in Hin |- *.
    - by apply elem_of_nil in Hin.
    - apply list_elem_of_singleton in Hin. done.
    - unfold count_malloc in *. simpl. by rewrite Hc. }
  unfold fv_queue_thread. mstep.
  assert (Hinit : buf_inv se (set_fbuf_mem None t)) by (by left).
  pose proof (fv_queue_thread_loop_inv wakes _ Hinit) as Hloop.
  unfold mbind, M_bind.
  destruct (fv_queue_thread_loop malloc se wakes (set_fbuf_mem None t))
    as [[[]| | |] t1]; simpl.
  - apply buf_inv_weaken in Hloop as [[Hl|Hl] Hm]; apply Hweak; tauto.
  - destruct Hloop as [[Hl Hm]|(post & mem & Hl & Hc & Hm & Hs)];
      apply (Hweak (thr_emit EvFreeBuf t1)); simpl.
    + right; left. by rewrite Hl.
    + by rewrite Hm.
    + right; right. exists (post ++ [EvFreeBuf]). rewrite Hl. split; [done|].
      by rewrite count_malloc_app, Hc.
    + rewrite Hm. by intros ? [= <-].
  - destruct Hloop as [[Hl|Hl] Hm]; apply Hweak; tauto.
  - destruct Hloop as [[Hl|Hl] Hm]; apply Hweak; tauto.
  - destruct Hloop as [[Hl|Hl] Hm]; apply Hweak; tauto.
Qed.

(** *** The buffer along the chains of a script *)

Lemma buf_write_length mem elem :
  chain_ok se elem → length mem = bufsize se →
  length (buf_write mem elem) = bufsize se.
Proof.
  intros [_ Hhi] Hlen. unfold buf_write.
  rewrite length_app, length_drop, <- iov_length_flatten. lia.
Qed.

Lemma foldl_buf_write_length cs : ∀ mem,
  Forall (chain_ok se) cs → length mem = bufsize se →
  length (foldl buf_write mem cs) = bufsize se.
Proof.
  induction cs as [|elem cs IH]; intros mem Hok Hlen; [done|].
  inversion_clear Hok. simpl. apply IH; [done|]. by apply buf_write_length.
Qed.

(** One chain that passes the checks, handled with the buffer [mem]: the
    request is written over the start of [mem], and the copy, the call of
    the session and the release are logged. *)
Lemma elem_body_handled elem mem t :
  chain_ok se elem → length mem = bufsize se →
  elem_body se elem mem t =
    (Done tt,
     ThreadSt (Some (buf_write mem elem)) (iov_length (out_sg elem)) None
       (thr_log t ++ chain_events elem)).
Proof.
  intros [Hlo Hhi] Hlen. unfold elem_body.
  destruct (Nat.ltb_spec (iov_length (out_sg elem)) sizeof_fuse_in_header); [lia|].
  destruct (Nat.ltb_spec (bufsize se) (iov_length (out_sg elem))); [lia|].
  unfold copy_from_iov, out_num.
  rewrite copy_from_iov_loop_ok by (rewrite <- iov_length_flatten; lia).
  assert (Hout : iov_length (out_sg elem) = length (flatten (out_sg elem)))
    by apply iov_length_flatten.
  f_equal. unfold thr_emit, set_thr_qe, set_fbuf_size, set_fbuf_mem, chain_events.
  simpl. rewrite <- !app_assoc. simpl. f_equal.
  - unfold buf_write, splice. simpl. by rewrite Hout.
  - do 3 f_equal. rewrite Hout. rewrite take_splice_0; [done|]. lia.
Qed.

Lemma count_malloc_log_after c cs : count_malloc (log_after se (c :: cs)) = 1.
Proof.
  unfold log_after, count_malloc. cbn [List.filter is_malloc length]. f_equal.
  generalize (c :: cs). intros l. induction l as [|e l IH]; [done|].
  simpl. exact IH.
Qed.

Section chains.
Variable mem0 : list byte.
Hypothesis malloc_mem0 : malloc (bufsize se) = Some mem0.
Hypothesis bufsize_ok : sizeof_fuse_in_header < bufsize se.

Lemma fv_queue_thread_elem_chain cs elem t :
  handled_chains se mem0 cs t → chain_ok se elem →
  ∃ t', fv_queue_thread_elem malloc se elem t = (Done tt, t') ∧
        handled_chains se mem0 (cs ++ [elem]) t'.
Proof.
  intros (Hlog & Hmem & Hcs) Helem. rewrite fv_queue_thread_elem_eq.
  assert (Hcs' : Forall (chain_ok se) (cs ++ [elem]))
    by (apply Forall_app; split; [done|by constructor]).
  destruct cs as [|c cs].
  - (* the first chain: the buffer is allocated now *)
    simpl in Hmem. rewrite Hmem. cbv zeta. rewrite malloc_mem0.
    rewrite (proj2 (Nat.ltb_lt _ _) bufsize_ok).
    rewrite elem_body_handled by (try done; by apply malloc_size).
    eexists; split; [done|]. split_and!; try done.
    unfold after_malloc. simpl. by rewrite Hlog.
  - (* a later chain: the buffer is the one at hand *)
    simpl in Hmem. rewrite Hmem.
    rewrite elem_body_handled; try done.
    2:{ apply (foldl_buf_write_length (c :: cs)); [done|by apply malloc_size]. }
    eexists; split; [done|]. split_and!; try done.
    + simpl. rewrite Hlog. simpl. by rewrite fmap_app, concat_app.
    + simpl. by rewrite foldl_snoc.
Qed.

Lemma fv_queue_thread_drain_chains chains : ∀ cs t,
  handled_chains se mem0 cs t → Forall (chain_ok se) chains →
  ∃ t', fv_queue_thread_drain malloc se chains t = (Done tt, t') ∧
        handled_chains se mem0 (cs ++ chains) t'.
Proof.
  induction chains as [|elem chains IH]; intros cs t Hcs Hok.
  - exists t. by rewrite app_nil_r.
  - inversion_clear Hok as [|? ? Helem Hrest].
    destruct (fv_queue_thread_elem_chain cs elem t Hcs Helem) as (t1 & Hrun1 & Hcs1).
    destruct (IH (cs ++ [elem]) t1 Hcs1 Hrest) as (t' & Hrun & Hcs').
    exists t'. cbn [fv_queue_thread_drain]. unfold mbind, M_bind.
    rewrite Hrun1, Hrun. split; [done|]. by rewrite <- app_assoc in Hcs'.
Qed.

Lemma fv_queue_thread_loop_chains wakes : ∀ cs t,
  handled_chains se mem0 cs t → Forall wake_ok wakes →
  Forall (chain_ok se) (script_chains wakes) →
  ∃ t', fv_queue_thread_loop malloc se wakes t = (Done LoopWaiting, t') ∧
        handled_chains se mem0 (cs ++ script_chains wakes) t'.
Proof.
  induction wakes as [|w wakes IH]; intros cs t Hcs Hwakes Hok.
  - exists t. unfold script_chains. simpl. by rewrite app_nil_r.
  - inversion_clear Hwakes as [|? ? Hw Hrest].
    unfold script_chains in Hok. simpl in Hok. apply Forall_app in Hok as [Hokw Hokr].
    cbn [fv_queue_thread_loop]. unfold script_chains. simpl. fold (script_chains wakes).
    unfold kick_chains in *.
    destruct Hw as [Hw|(revents & Hw & Herr & Hin & Hev)]; rewrite Hw in *.
    + simpl. by apply IH.
    + change (1 =? -1)%Z with false. change (1 =? 1)%Z with true. cbv iota. mstep.
      rewrite Herr. cbn [Z.eqb negb]. rewrite (proj2 (Z.eqb_neq _ _) Hin).
      cbn [negb]. mstep. rewrite Hev. cbn [negb].
      destruct (wk_out_bytes w =? 0); [simpl; by apply IH|].
      destruct (fv_queue_thread_drain_chains (wk_chains w) cs t Hcs Hokw)
        as (t1 & Hrun1 & Hcs1).
      destruct (IH (cs ++ wk_chains w) t1 Hcs1 Hrest Hokr) as (t' & Hrun & Hcs').
      exists t'. unfold mbind, M_bind. rewrite Hrun1, Hrun. split; [done|].
      by rewrite <- app_assoc in Hcs'.
Qed.

End chains.

(** C7.  The request buffer along one run of a worker, started with an
    empty log.

    On every script: if the worker allocated at all, the allocation, of
    [se->bufsize] bytes, is the first thing it did and the only one; a run
    that handed a chain to the session allocated exactly once; and the
    buffer it holds has [se->bufsize] bytes.

    On a script of interrupted waits and kicks whose N chains pass the two
    length checks (with a session whose [bufsize] is above the header size
    and a [malloc] that returns the block [mem0]), the worker handles all
    N chains and waits for the next kick, and
    - with N = 0 it has allocated nothing: the log is empty and [fbuf.mem]
      is NULL (the allocation is lazy);
    - with N >= 1 the log is the allocation of [se->bufsize] bytes, then,
      chain after chain in the order popped, its copy, its call of the
      session and its release: the first chain triggers the one
      allocation, no later chain allocates;
    - the buffer at the end is the block [mem0] that one [malloc] returned,
      written over by the N requests in turn: every chain used the buffer
      the chain before it left, and it still has [se->bufsize] bytes. *)
Theorem fv_queue_thread_allocates_once (wakes : list wake) (t : thread_st) :
  thr_log t = [] →
  let r := (fv_queue_thread malloc se wakes t).1 in
  let t' := (fv_queue_thread malloc se wakes t).2 in
  ((thr_log t' = [] ∨ thr_log t' = [EvFreeBuf] ∨
    ∃ post, thr_log t' = EvMalloc (bufsize se) :: post ∧ count_malloc post = 0) ∧
   (∀ i req, EvProcessBuf i req ∈ thr_log t' → count_malloc (thr_log t') = 1) ∧
   (∀ mem, fbuf_mem t' = Some mem → length mem = bufsize se)) ∧
  (∀ mem0,
     malloc (bufsize se) = Some mem0 →
     sizeof_fuse_in_header < bufsize se →
     Forall wake_ok wakes →
     Forall (chain_ok se) (script_chains wakes) →
     r = Done LoopWaiting ∧
     thr_log t' = log_after se (script_chains wakes) ∧
     fbuf_mem t' = buf_after mem0 (script_chains wakes) ∧
     count_malloc (thr_log t') = (if script_chains wakes is [] then 0 else 1)).
Proof.
  intros Hlog. cbv zeta. split; [by apply fv_queue_thread_buf_inv_run|].
  intros mem0 Hmal Hsize Hwakes Hok.
  assert (Hstart : handled_chains se mem0 [] (set_fbuf_mem None t)) by (by split_and!).
  destruct (fv_queue_thread_loop_chains mem0 Hmal Hsize wakes [] _ Hstart Hwakes Hok)
    as (t1 & Hrun & Hlog1 & Hmem1 & _).
  unfold fv_queue_thread. rewrite bind_modify. unfold mbind, M_bind.
  rewrite Hrun. cbn [fst snd]. simpl in Hlog1, Hmem1.
  split_and!; try done. simpl. rewrite Hlog1.
  destruct (script_chains wakes) as [|c cs]; [done|].
  by rewrite count_malloc_log_after.
Qed.


End worker_facts.

(** ** The queue life cycle *)

Lemma bind_table_get {B} (i : nat) (p : option loc) (k : option loc → M world B) (w : world) :
  vud_qi w !! i = Some p → (table_get i ≫= k) w = k p w.
Proof. intros Hp. unfold table_get, mbind, M_bind. by rewrite Hp. Qed.

(** After [realloc] to [i + 1] entries and the [memset], the table is the
    old one followed by null entries, whatever [realloc] left in the part
    it added. *)
Lemma memset_realloc fill (qi : list (option loc)) (i : nat) :
  length qi ≤ i →
  memset_null (realloc fill qi (i + 1)) (length qi) (1 + (i - length qi))
  = Done (qi ++ replicate (1 + (i - length qi)) None).
Proof.
  intros Hle. unfold memset_null, realloc.
  rewrite take_ge by lia.
  rewrite length_app, length_fmap, length_seq.
  rewrite (proj2 (Nat.leb_le _ _)) by lia.
  rewrite take_app_length. f_equal. f_equal.
  rewrite drop_app_add', drop_ge, app_nil_r; [done| |done].
  rewrite length_fmap, length_seq. lia.
Qed.

(** The world after a start of a queue beyond the table, when libc gives
    what it is asked for. *)
Lemma fv_queue_set_started_grow (os : sys) (qidx : Z) (w : world) (tid : pthread_t) :
  (0 < qidx)%Z → nqueues w ≤ Z.to_nat qidx →
  realloc_ok os = true → calloc_ok os = true → pthread_create os = Some tid →
  let i := Z.to_nat qidx in
  let ourqi := fresh (dom (heap w)) in
  fv_queue_set_started os qidx true w =
    (Done tt,
     World (<[i := Some ourqi]> (vud_qi w ++ replicate (1 + (i - nqueues w)) None))
           (alter (set_thread tid) ourqi
              (alter (set_kick_fd (vq_kick_fd w qidx)) ourqi
                 (<[ourqi := QueueInfo 0 qidx 0 None]> (heap w))))
           (vq_kick_fd w)
           (log w ++ [EvThreadCreate qidx ourqi])).
Proof.
  intros Hpos Hbeyond Hrealloc Hcalloc Hthread i ourqi.
  unfold fv_queue_set_started.
  rewrite (proj2 (Z.leb_le 0 qidx)) by lia. mstep.
  rewrite (proj2 (Z.eqb_neq qidx 0)) by lia. mstep.
  fold i. rewrite (proj2 (Nat.leb_le (nqueues w) i)) by done. mstep.
  rewrite Hrealloc. mstep.
  unfold nqueues at 1 2. rewrite memset_realloc by done. mstep.
  rewrite (bind_table_get _ None).
  2:{ unfold set_vud_qi. cbn [vud_qi]. rewrite lookup_app_r by done.
      apply lookup_replicate_2. unfold nqueues. lia. }
  mstep. rewrite Hcalloc. cbn [negb]. mstep.
  rewrite Hthread. mstep. done.
Qed.

(** C8, as the code has it.  A start of queue [qidx >= 1] beyond the end of
    the table, with [realloc], [calloc] and [pthread_create] succeeding,
    returns with the table grown to [qidx + 1] entries; the entries between
    the old end and [qidx] are null; every entry of the old table and every
    record on the heap (thread handle, kick handle and all) is as before. *)
Theorem fv_queue_set_started_frame (os : sys) (qidx : Z) (w : world) (tid : pthread_t) :
  (0 < qidx)%Z → nqueues w ≤ Z.to_nat qidx →
  realloc_ok os = true → calloc_ok os = true → pthread_create os = Some tid →
  ∃ w', fv_queue_set_started os qidx true w = (Done tt, w') ∧
        nqueues w' = Z.to_nat qidx + 1 ∧
        (∀ j, nqueues w ≤ j < Z.to_nat qidx → vud_qi w' !! j = Some None) ∧
        (∀ j, j < nqueues w → vud_qi w' !! j = vud_qi w !! j) ∧
        (∀ p r, heap w !! p = Some r → heap w' !! p = Some r).
Proof.
  intros Hpos Hbeyond Hrealloc Hcalloc Hthread.
  rewrite (fv_queue_set_started_grow os qidx w tid) by done. cbv zeta.
  eexists; split; [done|]. unfold nqueues in *. cbn [vud_qi heap].
  split_and!.
  - rewrite length_insert, length_app, length_replicate. lia.
  - intros j Hj. rewrite list_lookup_insert_ne by lia.
    rewrite lookup_app_r by lia. apply lookup_replicate_2. lia.
  - intros j Hj. rewrite list_lookup_insert_ne by lia.
    by rewrite lookup_app_l by lia.
  - intros p r Hp.
    assert (Hfresh : fresh (dom (heap w)) ≠ p).
    { intros <-. apply (is_fresh (dom (heap w))). by apply elem_of_dom. }
    by rewrite !lookup_alter_ne, lookup_insert_ne.
Qed.

Lemma fv_queue_set_started_frame_witness :
  ∃ w', fv_queue_set_started ex_sys 3 true (ex_world ex_elem) = (Done tt, w') ∧
        nqueues w' = 4 ∧
        (∀ j, 2 ≤ j < 3 → vud_qi w' !! j = Some None) ∧
        (∀ j, j < 2 → vud_qi w' !! j = vud_qi (ex_world ex_elem) !! j) ∧
        (∀ p r, heap (ex_world ex_elem) !! p = Some r → heap w' !! p = Some r).
Proof.
  apply (fv_queue_set_started_frame ex_sys 3 (ex_world ex_elem) 77%Z);
    try reflexivity; vm_compute; lia.
Defined.

(** C8, as the design document has it, covers index 0 on an empty table:
    0 is beyond the end of a table without entries, and the start of queue
    0 returns without growing the table. *)
Lemma fv_queue_set_started_frame_counterexample :
  nqueues ex_world_empty ≤ Z.to_nat 0 ∧
  fv_queue_set_started ex_sys 0 true ex_world_empty = (Done tt, ex_world_empty) ∧
  nqueues (fv_queue_set_started ex_sys 0 true ex_world_empty).2 ≠ Z.to_nat 0 + 1.
Proof. split_and!; [vm_compute; lia | reflexivity | vm_compute; lia]. Qed.

(** C9.  A call for queue 0 returns at once, with either value of
    [started]: the table, the heap of records, the device and the log (so
    no thread was created) are as before. *)
Theorem fv_queue_set_started_zero (os : sys) (started : bool) (w : world) :
  fv_queue_set_started os 0 started w = (Done tt, w).
Proof. reflexivity. Qed.

(** ** The worker on concrete chains *)

Lemma fv_queue_thread_elem_rejects_witness :
  fv_queue_thread_elem (H := linux_abi) ex_malloc ex_se ex_chain_short ex_thread
  = (AssertFail, ThreadSt (ex_malloc 64) 0 None [EvMalloc 64]).
Proof.
  apply (fv_queue_thread_elem_rejects (H := linux_abi) ex_malloc ex_se
           ex_chain_short ex_thread).
  left. vm_compute. lia.
Defined.

Lemma fv_queue_thread_allocates_once_witness :
  let r := (fv_queue_thread (H := linux_abi) ex_malloc ex_se ex_wakes ex_thread).1 in
  let t' := (fv_queue_thread (H := linux_abi) ex_malloc ex_se ex_wakes ex_thread).2 in
  r = Done LoopWaiting ∧
  thr_log t' = EvMalloc 64 :: concat (chain_events <$> [ex_chain 1; ex_chain 2; ex_chain 3]) ∧
  fbuf_mem t' = Some (foldl buf_write (replicate 64 x00%byte)
                        [ex_chain 1; ex_chain 2; ex_chain 3]) ∧
  count_malloc (thr_log t') = 1.
Proof.
  assert (Hmalloc : ∀ n mem, ex_malloc n = Some mem → length mem = n)
    by (intros n mem [= <-]; apply length_replicate).
  apply (proj2 (fv_queue_thread_allocates_once (H := linux_abi) ex_malloc ex_se
                  Hmalloc ex_wakes ex_thread eq_refl) (replicate 64 x00%byte)).
  - reflexivity.
  - vm_compute. lia.
  - repeat (constructor;
            [first [by left | right; exists POLLIN; by split_and!]|]).
    constructor.
  - repeat (constructor; [vm_compute; lia|]). constructor.
Defined.

(** The run of the script: three chains go to the session, after one
    allocation. *)
Example fv_queue_thread_ex_wakes :
  ∃ t', fv_queue_thread (H := linux_abi) ex_malloc ex_se ex_wakes ex_thread
        = (Done LoopWaiting, t') ∧
        thr_log t' =
          [ EvMalloc 64;
            EvCopyFromIov 1 42; EvProcessBuf 1 (flatten (out_sg (ex_chain 1))); EvFreeElem 1;
            EvCopyFromIov 2 42; EvProcessBuf 2 (flatten (out_sg (ex_chain 2))); EvFreeElem 2;
            EvCopyFromIov 3 42; EvProcessBuf 3 (flatten (out_sg (ex_chain 3))); EvFreeElem 3 ] ∧
        length <$> fbuf_mem t' = Some 64.
Proof. eexists. split_and!; by vm_compute. Qed.

(** A chain of 70 bytes for a buffer of 64 stops a worker that has its
    buffer, in the state it was in. *)
Example fv_queue_thread_elem_long :
  ∀ t, fbuf_mem t = Some (replicate 64 x00%byte) →
       fv_queue_thread_elem (H := linux_abi) ex_malloc ex_se ex_chain_long t
       = (AssertFail, t).
Proof.
  intros t Hmem.
  rewrite (fv_queue_thread_elem_eq (H := linux_abi)), Hmem. reflexivity.
Qed.

(** * Further properties of the code *)

(** ** The copy engine beyond its contract *)

Lemma shape_flatten_eq (l1 : list iovec) : ∀ l2,
  iov_len <$> l1 = iov_len <$> l2 → flatten l1 = flatten l2 → l1 = l2.
Proof.
  unfold flatten, iov_len.
  induction l1 as [|a l1 IH]; intros [|b l2] Hs Hf; try done.
  simpl in Hs, Hf. injection Hs as Hab Hs.
  apply app_inj_1 in Hf as [-> Hf]; [|done]. f_equal. by apply IH.
Qed.

Lemma iov_length_shape (l1 l2 : list iovec) :
  iov_len <$> l1 = iov_len <$> l2 → iov_length l1 = iov_length l2.
Proof. unfold iov_length. by intros ->. Qed.

(** The inner loop with less destination room than the source region
    needs: it fills what there is and stops at [assert(dst_count)]. *)
Lemma copy_iov_inner_short fuel src0 : ∀ src_offset src_len st,
  copy_inv st →
  length (dst_iov st) < fuel →
  src_offset + src_len ≤ length src0 →
  length (flatten (copy_dst st)) < copy_pos st + src_len →
  copy_iov_inner fuel src0 src_offset src_len st = AssertFail.
Proof.
  induction fuel as [|fuel IH]; intros soff slen st Hinv Hfuel Hsrc Hcap; [lia|].
  pose proof (copy_pos_le st Hinv) as Hpos.
  assert (Hnz : slen ≠ 0) by lia.
  destruct st as [done ds cnt off tc].
  destruct Hinv as [Hcnt Hoff]. unfold copy_pos, copy_dst, flatten in Hcap.
  cbn [dst_count dst_iov dst_offset to_copy dst_done] in *.
  rewrite concat_app, length_app in Hcap.
  destruct ds as [|d rest].
  { cbn [copy_iov_inner dst_count]. rewrite (proj2 (Nat.eqb_neq _ _) Hnz).
    by rewrite Hcnt. }
  unfold iov_len in Hoff. cbn [length] in Hfuel.
  cbn [concat] in Hcap. rewrite length_app in Hcap.
  rewrite copy_iov_inner_step by (try done; simpl in Hcnt; lia).
  set (n := Nat.min (length d - off) slen).
  set (d' := splice d off (take n (drop soff src0))).
  assert (Hd' : length d' = length d).
  { apply length_splice. rewrite length_take, length_drop. lia. }
  rewrite (proj2 (Nat.eqb_eq (off + n) (length d))) by lia.
  apply IH; cbn [dst_count dst_iov dst_offset to_copy dst_done].
  - split; simpl; [simpl in Hcnt; lia|]. destruct rest; [done|lia].
  - lia.
  - lia.
  - unfold copy_pos, copy_dst, flatten. simpl.
    rewrite !concat_app, !length_app. simpl. rewrite app_nil_r. lia.
Qed.

Lemma copy_iov_outer_short fuel src_iov : ∀ st,
  copy_inv st →
  length (dst_iov st) < fuel →
  length (flatten src_iov) < to_copy st ∨
  length (flatten (copy_dst st)) < copy_pos st + to_copy st →
  copy_iov_outer fuel src_iov (Z.of_nat (length src_iov)) st = AssertFail.
Proof.
  induction src_iov as [|s src_iov IH]; intros st Hinv Hfuel Hshort;
    pose proof (copy_pos_le st Hinv) as Hpos;
    assert (Htc : to_copy st ≠ 0) by (simpl in Hshort; lia);
    cbn [copy_iov_outer]; rewrite (proj2 (Nat.eqb_neq _ _) Htc); [done|].
  rewrite (proj2 (Z.eqb_neq (Z.of_nat (length (s :: src_iov))) 0)) by (simpl; lia).
  unfold iov_len.
  set (src_len := if to_copy st <? length s then to_copy st else length s).
  assert (Hlen : src_len = Nat.min (length s) (to_copy st)).
  { unfold src_len. destruct (Nat.ltb_spec (to_copy st) (length s)); lia. }
  destruct (decide (copy_pos st + src_len ≤ length (flatten (copy_dst st))))
    as [Hroom|Hroom].
  - destruct (copy_iov_inner_ok fuel s 0 src_len st) as (st1 & Hrun & Hw1);
      try done; try lia.
    rewrite Hrun. cbn [mbind outcome_bind].
    assert (Hl1 : length (take src_len (drop 0 s)) = src_len).
    { rewrite length_take, length_drop. lia. }
    destruct Hw1 as (_ & Hi1 & Hf1 & Hp1 & Ht1 & Hd1 & _).
    rewrite Hl1 in Hp1, Ht1.
    replace (Z.of_nat (length (s :: src_iov)) - 1)%Z
      with (Z.of_nat (length src_iov)) by (simpl; lia).
    apply IH; try done; try lia.
    rewrite Hf1, length_splice, Hp1, Ht1 by lia.
    unfold flatten in Hshort. simpl in Hshort. rewrite length_app in Hshort.
    unfold flatten. lia.
  - rewrite copy_iov_inner_short; try done; lia.
Qed.

Lemma copy_iov_short fuel src dst n :
  length dst < fuel →
  iov_length src < n ∨ iov_length dst < n →
  copy_iov fuel src (Z.of_nat (length src)) dst (Z.of_nat (length dst)) n = AssertFail.
Proof.
  intros Hfuel Hshort. rewrite !iov_length_flatten in Hshort. unfold copy_iov.
  rewrite copy_iov_outer_short; try done.
  split; simpl; [done|]. destruct dst; [done|lia].
Qed.

(** X1.  When the source regions hold fewer than [to_copy] bytes, or the
    destination regions have less room than [to_copy], [copy_iov] stops at
    one of its assertions ([assert(src_count)] or [assert(dst_count)]): it
    never reads or writes outside a region. *)
Theorem copy_iov_short_asserts (src dst : list iovec) (to_copy fuel : nat) :
  length dst < fuel →
  iov_length src < to_copy ∨ iov_length dst < to_copy →
  copy_iov fuel src (Z.of_nat (length src)) dst (Z.of_nat (length dst)) to_copy
  = AssertFail.
Proof. intros Hfuel Hshort. by apply copy_iov_short. Qed.

Lemma copy_iov_short_asserts_witness :
  copy_iov 5 ex_src 3 ex_dst 4 6 = AssertFail ∧
  copy_iov 5 ex_dst 4 ex_src 3 6 = AssertFail.
Proof.
  split.
  - apply (copy_iov_short_asserts ex_src ex_dst 6 5); [vm_compute; lia|].
    left. vm_compute. lia.
  - apply (copy_iov_short_asserts ex_dst ex_src 6 5); [vm_compute; lia|].
    right. vm_compute. lia.
Defined.

(** X2.  [copy_iov] writes the first [L] bytes of the destination and
    nothing else: the flattened destination after the copy is the first
    [L] source bytes followed by the old destination bytes from [L] on. *)
Theorem copy_iov_frame (src dst : list iovec) (L fuel : nat) :
  L ≤ iov_length src → L ≤ iov_length dst → length dst < fuel →
  ∃ dst', copy_iov fuel src (Z.of_nat (length src)) dst (Z.of_nat (length dst)) L
          = Done dst' ∧
          flatten dst' = take L (flatten src) ++ drop L (flatten dst) ∧
          drop L (flatten dst') = drop L (flatten dst).
Proof.
  intros Hsrc Hdst Hfuel.
  destruct (copy_iov_ok fuel src dst L) as (dst' & Hrun & _ & Hflat); try done.
  exists dst'. split_and!; try done. rewrite Hflat.
  rewrite drop_app_length'; [done|].
  rewrite length_take, <- iov_length_flatten. lia.
Qed.

Lemma copy_iov_frame_witness :
  ∃ dst', copy_iov 5 ex_src 3 ex_dst 4 3 = Done dst' ∧
          flatten dst' = [x01; x02; x03; xa3; xa4; xa5]%byte ∧
          drop 3 (flatten dst') = [xa3; xa4; xa5]%byte.
Proof.
  apply (copy_iov_frame ex_src ex_dst 3 5); vm_compute; lia.
Defined.

(** X3.  The result of [copy_iov] depends on the source only through its
    flattened bytes: two source lists that cut the same bytes into regions
    differently give the same destination (or the same failure), for every
    [to_copy]. *)
Theorem copy_iov_repartition (src1 src2 dst : list iovec) (to_copy fuel : nat) :
  flatten src1 = flatten src2 → length dst < fuel →
  copy_iov fuel src1 (Z.of_nat (length src1)) dst (Z.of_nat (length dst)) to_copy
  = copy_iov fuel src2 (Z.of_nat (length src2)) dst (Z.of_nat (length dst)) to_copy.
Proof.
  intros Hflat Hfuel.
  assert (Hlen : iov_length src1 = iov_length src2)
    by (by rewrite !iov_length_flatten, Hflat).
  destruct (decide (to_copy ≤ iov_length src1 ∧ to_copy ≤ iov_length dst))
    as [[Hs Hd]|Hshort].
  - destruct (copy_iov_ok fuel src1 dst to_copy) as (d1 & Hr1 & Hs1 & Hf1); try done.
    destruct (copy_iov_ok fuel src2 dst to_copy) as (d2 & Hr2 & Hs2 & Hf2);
      try done; try lia.
    rewrite Hr1, Hr2. f_equal. apply shape_flatten_eq; congruence.
  - rewrite !copy_iov_short; try done; lia.
Qed.

Lemma copy_iov_repartition_witness :
  copy_iov 5 ex_src 3 ex_dst 4 4
  = copy_iov 5 [[x01]; [x02; x03; x04]; [x05]]%list%byte 3 ex_dst 4 4.
Proof.
  apply (copy_iov_repartition ex_src [[x01]; [x02; x03; x04]; [x05]]%list%byte
           ex_dst 4 5); [reflexivity | vm_compute; lia].
Defined.

(** X4.  Copying the same source a second time changes nothing: the
    destination [copy_iov] returns is a fixed point of the copy. *)
Theorem copy_iov_idempotent (src dst : list iovec) (L fuel : nat) :
  L ≤ iov_length src → L ≤ iov_length dst → length dst < fuel →
  ∃ dst', copy_iov fuel src (Z.of_nat (length src)) dst (Z.of_nat (length dst)) L
          = Done dst' ∧
          copy_iov fuel src (Z.of_nat (length src)) dst' (Z.of_nat (length dst')) L
          = Done dst'.
Proof.
  intros Hsrc Hdst Hfuel.
  destruct (copy_iov_ok fuel src dst L) as (d1 & Hr1 & Hs1 & Hf1); try done.
  exists d1. split; [done|].
  assert (Hlen : length d1 = length dst).
  { apply (f_equal length) in Hs1. by rewrite !length_fmap in Hs1. }
  destruct (copy_iov_ok fuel src d1 L) as (d2 & Hr2 & Hs2 & Hf2); try done; try lia.
  { by rewrite (iov_length_shape d1 dst). }
  rewrite Hr2. f_equal. apply shape_flatten_eq; [done|].
  rewrite Hf2, Hf1. f_equal. rewrite drop_app_length'; [done|].
  rewrite length_take, <- iov_length_flatten. lia.
Qed.

Lemma copy_iov_idempotent_witness :
  ∃ dst', copy_iov 5 ex_src 3 ex_dst 4 4 = Done dst' ∧
          copy_iov 5 ex_src 3 dst' (Z.of_nat (length dst')) 4 = Done dst'.
Proof.
  apply (copy_iov_idempotent ex_src ex_dst 4 5); vm_compute; lia.
Defined.

(** X5.  [copy_iov] terminates on every input, also with counts that do
    not match the arrays and with too few bytes on either side: its inner
    loop never needs more iterations per source region than there are
    destination regions, plus one. *)
Theorem copy_iov_terminates (src dst : list iovec) (src_count dst_count : Z)
    (to_copy fuel : nat) :
  length dst < fuel →
  copy_iov fuel src src_count dst dst_count to_copy ≠ OutOfFuel.
Proof.
  intros Hfuel. unfold copy_iov.
  pose proof (copy_iov_outer_fuel fuel src src_count
                (CopySt [] dst dst_count 0 to_copy)) as Hout.
  destruct (copy_iov_outer _ _ _ _); cbn [mbind outcome_bind]; try done.
  intros _. by apply Hout.
Qed.

Lemma copy_iov_terminates_witness :
  copy_iov 5 ex_src 7 ex_dst (-2) 100 ≠ OutOfFuel.
Proof.
  apply (copy_iov_terminates ex_src ex_dst 7 (-2) 100 5). vm_compute. lia.
Defined.

(** ** copy_from_iov beyond its contract *)

Lemma copy_from_iov_loop_overrun out_sg : ∀ mem dest,
  dest ≤ length mem → length mem < dest + length (flatten out_sg) →
  copy_from_iov_loop (length out_sg) mem dest out_sg = OutOfBounds.
Proof.
  induction out_sg as [|sg out_sg IH]; intros mem dest Hdest Hover; simpl in *; [lia|].
  rewrite length_app in Hover. unfold iov_len.
  destruct (decide (dest + length sg ≤ length mem)) as [Hfit|Hfit].
  - rewrite memcpy_ok by lia. cbn [mbind outcome_bind].
    apply IH; rewrite length_splice; rewrite ?length_take, ?length_drop; lia.
  - unfold memcpy. rewrite (proj2 (Nat.leb_gt _ _)) by lia. done.
Qed.

Lemma copy_from_iov_loop_take n : ∀ mem dest out_sg,
  copy_from_iov_loop n mem dest out_sg = copy_from_iov_loop n mem dest (take n out_sg).
Proof.
  induction n as [|n IH]; intros mem dest [|sg out_sg]; simpl; try done.
  destruct (memcpy _ _ _ _ _); cbn [mbind outcome_bind]; [apply IH|done..].
Qed.

(** X6.  [copy_from_iov] has no check of its own: when the regions hold
    more bytes than the buffer, it runs over the end of the buffer. *)
Theorem copy_from_iov_overruns (mem : list byte) (out_sg : list iovec) :
  length mem < iov_length out_sg →
  copy_from_iov mem (length out_sg) out_sg = OutOfBounds.
Proof.
  intros Hover. rewrite iov_length_flatten in Hover.
  unfold copy_from_iov. apply copy_from_iov_loop_overrun; lia.
Qed.

Lemma copy_from_iov_overruns_witness :
  copy_from_iov (take 4 ex_mem) 3 ex_src = OutOfBounds.
Proof.
  apply (copy_from_iov_overruns (take 4 ex_mem) ex_src). vm_compute. lia.
Defined.

(** X7.  [copy_from_iov] reads the first [out_num] regions only: with a
    count below the length of the array, the buffer receives the bytes of
    that prefix of the array and keeps the rest of its contents. *)
Theorem copy_from_iov_count (mem : list byte) (out_num : nat) (out_sg : list iovec) :
  out_num ≤ length out_sg →
  iov_length (take out_num out_sg) ≤ length mem →
  copy_from_iov mem out_num out_sg
  = Done (flatten (take out_num out_sg)
          ++ drop (iov_length (take out_num out_sg)) mem).
Proof.
  intros Hnum Hfit. rewrite iov_length_flatten in *.
  unfold copy_from_iov. rewrite copy_from_iov_loop_take.
  replace out_num with (length (take out_num out_sg)) at 1
    by (rewrite length_take; lia).
  by rewrite copy_from_iov_loop_ok.
Qed.

Lemma copy_from_iov_count_witness :
  copy_from_iov ex_mem 1 ex_src = Done ([x01; x02] ++ replicate 6 xff)%byte.
Proof.
  apply (copy_from_iov_count ex_mem 1 ex_src); vm_compute; lia.
Defined.

(** ** The reply path on every input *)

Section send_more.
Context `{FuseAbi}.

(** X8.  [virtio_send_msg] is all or nothing.  On every input it either
    stops (at an assertion, at a null or dangling pointer, or with
    [-E2BIG]) in the state it was called in, or it returns 0 after exactly
    one copy, one push and one notification, in this order.  In
    particular the two size checks are enough for [copy_iov]: once the
    copy is started it cannot fail. *)
Theorem virtio_send_msg_all_or_nothing (se : fuse_session) (ch : option fuse_chan)
    (iov : list iovec) (w : world) :
  let r := (virtio_send_msg se ch iov w).1 in
  let w' := (virtio_send_msg se ch iov w).2 in
  (w' = w ∧ (r = AssertFail ∨ r = OutOfBounds ∨ r = Done (- E2BIG)%Z)) ∨
  (r = Done 0%Z ∧
   ∃ c qi elem in_sg',
     ch = Some c ∧ heap w !! ch_qi c = Some qi ∧ qe qi = Some elem ∧
     w' = World (vud_qi w)
                (<[ch_qi c := set_qe (Some (set_in_sg in_sg' elem)) qi]> (heap w))
                (vq_kick_fd w)
                (log w ++ [EvCopyIov (index elem) (iov_length iov);
                           EvQueuePush (qidx qi) (index elem) (iov_length iov);
                           EvQueueNotify (qidx qi)])).
Proof.
  cbv zeta. destruct iov as [|iov0 rest]; [left; by split; [|left]|].
  destruct (decide (sizeof_fuse_out_header ≤ iov_len iov0)) as [Hhdr|Hhdr].
  2:{ left. unfold virtio_send_msg.
      replace (1 <=? Z.of_nat (length (iov0 :: rest)))%Z with true
        by (symmetry; apply Z.leb_le; simpl; lia).
      change ((iov0 :: rest) !! 0) with (Some iov0). cbn [from_option]. mstep.
      rewrite (proj2 (Nat.leb_gt _ _)) by lia. mstep. by split; [|left]. }
  destruct (decide (out_header_unique iov0 = 0%N)) as [Hz|Hnz].
  { left. unfold virtio_send_msg.
    replace (1 <=? Z.of_nat (length (iov0 :: rest)))%Z with true
      by (symmetry; apply Z.leb_le; simpl; lia).
    change ((iov0 :: rest) !! 0) with (Some iov0). cbn [from_option]. mstep.
    rewrite (proj2 (Nat.leb_le _ _) Hhdr). mstep.
    rewrite Hz. mstep. by split; [|left]. }
  assert (Hpre : ∀ k : M world Z,
    (m_assert (1 <=? Z.of_nat (length (iov0 :: rest)))%Z;;
     iov0' ← m_lift (from_option Done OutOfBounds ((iov0 :: rest) !! 0));
     m_assert (sizeof_fuse_out_header <=? iov_len iov0');;
     m_assert (negb (out_header_unique iov0' =? 0)%N);; k) w = k w).
  { intros k.
    replace (1 <=? Z.of_nat (length (iov0 :: rest)))%Z with true
      by (symmetry; apply Z.leb_le; simpl; lia).
    change ((iov0 :: rest) !! 0) with (Some iov0). cbn [from_option]. mstep.
    rewrite (proj2 (Nat.leb_le _ _) Hhdr). mstep.
    rewrite (proj2 (N.eqb_neq _ _) Hnz). cbn [negb]. by mstep. }
  destruct ch as [c|].
  2:{ left. unfold virtio_send_msg. rewrite Hpre. cbn [from_option].
      by split; [|left]. }
  destruct (heap w !! ch_qi c) as [qi|] eqn:Hqi.
  2:{ left. unfold virtio_send_msg. rewrite Hpre. cbn [from_option]. mstep.
      unfold deref, mbind, M_bind. rewrite Hqi. by split; [|right; left]. }
  destruct (qe qi) as [elem|] eqn:Hqe.
  2:{ left. unfold virtio_send_msg. rewrite Hpre. cbn [from_option]. mstep.
      rewrite (bind_deref _ qi) by done. rewrite Hqe. cbn [from_option].
      by split; [|right; left]. }
  rewrite (virtio_send_msg_checked se c iov0 rest w qi elem) by done. cbv zeta.
  destruct (Nat.ltb_spec (iov_length (in_sg elem)) sizeof_fuse_out_header);
    [left; by split; [|right; right]|].
  destruct (Nat.ltb_spec (iov_length (in_sg elem)) (iov_length (iov0 :: rest)));
    [left; by split; [|right; right]|].
  destruct (copy_iov_ok (copy_iov_fuel (in_sg elem)) (iov0 :: rest) (in_sg elem)
              (iov_length (iov0 :: rest)))
    as (in_sg' & Hrun & _); try done.
  { unfold copy_iov_fuel. lia. }
  unfold in_num. rewrite Hrun. right. split; [done|].
  by exists c, qi, elem, in_sg'.
Qed.

(** X9.  A call without a channel, without a region, or with a first
    region shorter than the reply header stops at an assertion, in the
    state it was called in, whatever the rest of the input. *)
Theorem virtio_send_msg_malformed (se : fuse_session) (ch : option fuse_chan)
    (iov : list iovec) (w : world) :
  ch = None ∨ iov = [] ∨
  (∃ iov0 rest, iov = iov0 :: rest ∧ iov_len iov0 < sizeof_fuse_out_header) →
  virtio_send_msg se ch iov w = (AssertFail, w).
Proof.
  intros Hbad. destruct iov as [|iov0 rest]; [done|].
  unfold virtio_send_msg.
  replace (1 <=? Z.of_nat (length (iov0 :: rest)))%Z with true
    by (symmetry; apply Z.leb_le; simpl; lia).
  change ((iov0 :: rest) !! 0) with (Some iov0). cbn [from_option]. mstep.
  destruct (Nat.leb_spec sizeof_fuse_out_header (iov_len iov0)) as [Hhdr|Hhdr];
    mstep; [|done].
  destruct (negb (out_header_unique iov0 =? 0)%N); mstep; [|done].
  destruct Hbad as [->|[Hnil|(a & b & [= <- <-] & Hshort)]]; [done|done|lia].
Qed.

(** X10.  A well-formed reply on a channel whose queue record has no chain
    in progress ([qe] is NULL) makes [virtio_send_msg] go through the null
    pointer: nothing is copied, pushed or notified. *)
Theorem virtio_send_msg_no_chain (se : fuse_session) (c : fuse_chan)
    (iov0 : iovec) (rest : list iovec) (w : world) (qi : fv_QueueInfo) :
  sizeof_fuse_out_header ≤ iov_len iov0 →
  out_header_unique iov0 ≠ 0%N →
  heap w !! ch_qi c = Some qi →
  qe qi = None →
  virtio_send_msg se (Some c) (iov0 :: rest) w = (OutOfBounds, w).
Proof.
  intros Hhdr Huniq Hqi Hqe. unfold virtio_send_msg.
  replace (1 <=? Z.of_nat (length (iov0 :: rest)))%Z with true
    by (symmetry; apply Z.leb_le; simpl; lia).
  change ((iov0 :: rest) !! 0) with (Some iov0). cbn [from_option]. mstep.
  rewrite (proj2 (Nat.leb_le _ _) Hhdr). mstep.
  rewrite (proj2 (N.eqb_neq _ _) Huniq). cbn [negb]. mstep.
  rewrite (bind_deref _ qi) by done. by rewrite Hqe.
Qed.

(** X11.  What a successful reply leaves alone: the "in" bytes after the
    reply, the "out" regions and the index of the chain, the thread, index
    and kick handle of the queue record, every other queue record, and
    the queue table. *)
Theorem virtio_send_msg_frame (se : fuse_session) (c : fuse_chan)
    (iov0 : iovec) (rest : list iovec) (w : world)
    (qi : fv_QueueInfo) (elem : VuVirtqElement) :
  sizeof_fuse_out_header ≤ iov_len iov0 →
  out_header_unique iov0 ≠ 0%N →
  heap w !! ch_qi c = Some qi →
  qe qi = Some elem →
  iov_length (iov0 :: rest) ≤ iov_length (in_sg elem) →
  ∃ in_sg' w',
    virtio_send_msg se (Some c) (iov0 :: rest) w = (Done 0%Z, w') ∧
    flatten in_sg' = flatten (iov0 :: rest)
                     ++ drop (iov_length (iov0 :: rest)) (flatten (in_sg elem)) ∧
    heap w' !! ch_qi c =
      Some (QueueInfo (thread qi) (qidx qi) (kick_fd qi)
              (Some (VuElem (index elem) (out_sg elem) in_sg'))) ∧
    (∀ p, p ≠ ch_qi c → heap w' !! p = heap w !! p) ∧
    vud_qi w' = vud_qi w.
Proof.
  intros Hhdr Huniq Hqi Hqe Hroom.
  assert (Hroom1 : sizeof_fuse_out_header ≤ iov_length (in_sg elem)).
  { etrans; [|exact Hroom]. unfold iov_length. simpl. lia. }
  rewrite (virtio_send_msg_checked se c iov0 rest w qi elem) by done. cbv zeta.
  destruct (Nat.ltb_spec (iov_length (in_sg elem)) sizeof_fuse_out_header); [lia|].
  destruct (Nat.ltb_spec (iov_length (in_sg elem)) (iov_length (iov0 :: rest))); [lia|].
  destruct (copy_iov_ok (copy_iov_fuel (in_sg elem)) (iov0 :: rest) (in_sg elem)
              (iov_length (iov0 :: rest)))
    as (in_sg' & Hrun & _ & Hflat); try done.
  { unfold copy_iov_fuel. lia. }
  unfold in_num. rewrite Hrun. eexists in_sg', _. split; [done|].
  cbn [heap vud_qi]. split_and!; try done.
  - rewrite Hflat. f_equal. rewrite iov_length_flatten. apply firstn_all.
  - by rewrite lookup_insert_eq.
  - intros p Hp. by rewrite lookup_insert_ne.
Qed.

End send_more.

Lemma virtio_send_msg_malformed_witness :
  virtio_send_msg (H := linux_abi) ex_se None ex_reply (ex_world ex_elem)
  = (AssertFail, ex_world ex_elem).
Proof.
  apply (virtio_send_msg_malformed (H := linux_abi)). by left.
Defined.

Lemma virtio_send_msg_no_chain_witness :
  virtio_send_msg (H := linux_abi) ex_se (Some ex_ch) ex_reply
    (World [None; Some 1%positive] {[ 1%positive := QueueInfo 10 1 3 None ]}
       (λ _, 3%Z) [])
  = (OutOfBounds,
     World [None; Some 1%positive] {[ 1%positive := QueueInfo 10 1 3 None ]}
       (λ _, 3%Z) []).
Proof.
  apply (virtio_send_msg_no_chain (H := linux_abi) ex_se ex_ch ex_reply_hdr
           [[xb1; xb2; xb3]%byte] _ (QueueInfo 10 1 3 None)).
  - vm_compute. lia.
  - by vm_compute.
  - reflexivity.
  - reflexivity.
Defined.

Lemma virtio_send_msg_frame_witness :
  ∃ in_sg' w',
    virtio_send_msg (H := linux_abi) ex_se (Some ex_ch) ex_reply (ex_world ex_elem)
      = (Done 0%Z, w') ∧
    flatten in_sg' = flatten ex_reply ++ replicate 5 xee%byte ∧
    heap w' !! 1%positive = Some (QueueInfo 10 1 3 (Some (VuElem 5 [] in_sg'))) ∧
    (∀ p, p ≠ 1%positive → heap w' !! p = heap (ex_world ex_elem) !! p) ∧
    vud_qi w' = [None; Some 1%positive].
Proof.
  apply (virtio_send_msg_frame (H := linux_abi) ex_se ex_ch ex_reply_hdr
           [[xb1; xb2; xb3]%byte] (ex_world ex_elem) (ex_qi ex_elem) ex_elem).
  - vm_compute. lia.
  - by vm_compute.
  - reflexivity.
  - reflexivity.
  - vm_compute. lia.
Defined.

(** ** The queue worker on every script *)

Section worker_more.
Context `{FuseAbi}.
Variable malloc : nat → option (list byte).
Variable se : fuse_session.

(** A property [J] that one chain keeps, and that gives [K] wherever a
    chain stops the worker, gives [K] at the end of every run. *)
Lemma fv_queue_thread_lift (J K : thread_st → Prop) :
  (∀ t, J t → K t) →
  (∀ elem t, J t →
     match fv_queue_thread_elem malloc se elem t with
     | (Done _, t') => J t'
     | (_, t') => K t'
     end) →
  (∀ t, J t → J (set_fbuf_mem None t)) →
  (∀ t, J t → K (thr_emit EvFreeBuf t)) →
  ∀ wakes t, J t → K (fv_queue_thread malloc se wakes t).2.
Proof.
  intros HJK Helem Hnull Hfree.
  assert (Hdrain : ∀ chains t, J t →
    match fv_queue_thread_drain malloc se chains t with
    | (Done _, t') => J t'
    | (_, t') => K t'
    end).
  { induction chains as [|elem chains IH]; intros t HJ; [done|].
    cbn [fv_queue_thread_drain]. unfold mbind, M_bind.
    specialize (Helem elem t HJ).
    destruct (fv_queue_thread_elem malloc se elem t) as [[[]| | |] t1]; try done.
    by apply IH. }
  assert (Hloop : ∀ wakes t, J t →
    match fv_queue_thread_loop malloc se wakes t with
    | (Done _, t') => J t'
    | (_, t') => K t'
    end).
  { induction wakes as [|w wakes IH]; intros t HJ; [done|].
    cbn [fv_queue_thread_loop].
    destruct (wk_ppoll w) as [| |poll_res revents]; [by apply IH|done|].
    destruct (poll_res =? -1)%Z; [done|].
    destruct (poll_res =? 1)%Z; mstep; [|by apply HJK].
    destruct (negb (Z.land revents _ =? 0)%Z); [done|].
    destruct (negb (Z.land revents POLLIN =? 0)%Z); mstep; [|by apply HJK].
    destruct (negb (wk_eventfd_ok w)); [done|].
    destruct (wk_out_bytes w =? 0); [by apply IH|].
    unfold mbind, M_bind. specialize (Hdrain (wk_chains w) t HJ).
    destruct (fv_queue_thread_drain malloc se (wk_chains w) t) as [[[]| | |] t1];
      try done.
    by apply IH. }
  intros wakes t HJ. unfold fv_queue_thread. mstep.
  specialize (Hloop wakes _ (Hnull t HJ)). unfold mbind, M_bind.
  destruct (fv_queue_thread_loop malloc se wakes (set_fbuf_mem None t))
    as [[[]| | |] t1]; simpl; try done.
  - by apply HJK.
  - by apply Hfree.
Qed.

Lemma count_if_app f l l' : count_if f (l ++ l') = count_if f l + count_if f l'.
Proof. unfold count_if. by rewrite List.filter_app, length_app. Qed.

(** X12.  A chain whose "out" bytes fit between the header size and
    [se->bufsize] is flattened into the request buffer, and the session is
    handed exactly the concatenation of the "out" regions: no byte of an
    earlier request.  Afterwards the recorded chain is cleared and the
    chain is released. *)
Theorem fv_queue_thread_elem_hands_request (elem : VuVirtqElement)
    (t : thread_st) (mem : list byte) :
  fbuf_mem t = Some mem → length mem = bufsize se →
  sizeof_fuse_in_header ≤ iov_length (out_sg elem) ≤ bufsize se →
  let out_len := iov_length (out_sg elem) in
  fv_queue_thread_elem malloc se elem t =
    (Done tt,
     ThreadSt (Some (flatten (out_sg elem) ++ drop out_len mem)) out_len None
       (thr_log t ++ [EvCopyFromIov (index elem) out_len;
                      EvProcessBuf (index elem) (flatten (out_sg elem));
                      EvFreeElem (index elem)])).
Proof.
  intros Hmem Hsize [Hlo Hhi] out_len.
  rewrite fv_queue_thread_elem_eq, Hmem. unfold elem_body. fold out_len.
  destruct (Nat.ltb_spec out_len sizeof_fuse_in_header); [lia|].
  destruct (Nat.ltb_spec (bufsize se) out_len); [lia|].
  unfold copy_from_iov, out_num.
  rewrite copy_from_iov_loop_ok by (rewrite <- iov_length_flatten; fold out_len; lia).
  assert (Hlen : out_len = length (flatten (out_sg elem)))
    by apply iov_length_flatten.
  f_equal. unfold thr_emit, set_thr_qe, set_fbuf_size, set_fbuf_mem. simpl.
  rewrite <- !app_assoc. simpl. f_equal.
  - unfold splice. simpl. by rewrite Hlen.
  - do 3 f_equal. rewrite Hlen. rewrite take_splice_0; [done|]. lia.
Qed.

Hypothesis malloc_size : ∀ n mem, malloc n = Some mem → length mem = n.

Lemma worker_inv_emit e t :
  worker_inv se t → req_ok se e →
  is_copy_from_iov e = false → is_process_buf e = false → is_free_elem e = false →
  worker_inv se (thr_emit e t).
Proof.
  intros (Hm & Hr & Hc1 & Hc2) He H1 H2 H3. unfold worker_inv. simpl.
  rewrite !count_if_app. unfold count_if at 2 4 6 8. simpl.
  rewrite H1, H2, H3. simpl. split_and!; try done; try lia.
  apply Forall_app. split; [done|]. by constructor.
Qed.

Lemma fv_queue_thread_elem_worker_inv elem t :
  worker_inv se t → worker_inv se (fv_queue_thread_elem malloc se elem t).2.
Proof.
  assert (Hbody : ∀ mem t1, worker_inv se t1 → fbuf_mem t1 = Some mem →
            worker_inv se (elem_body se elem mem t1).2).
  { intros mem t1 Hinv Hmem. pose proof Hinv as (Hm & Hr & Hc1 & Hc2).
    unfold elem_body.
    destruct (Nat.ltb_spec (iov_length (out_sg elem)) sizeof_fuse_in_header); [done|].
    destruct (Nat.ltb_spec (bufsize se) (iov_length (out_sg elem))); [done|].
    specialize (Hm mem Hmem).
    unfold copy_from_iov, out_num.
    rewrite copy_from_iov_loop_ok by (rewrite <- iov_length_flatten; lia).
    unfold worker_inv. simpl. rewrite <- !app_assoc. simpl.
    rewrite !count_if_app. unfold count_if at 2 4 6 8. simpl.
    split_and!; try lia.
    - intros mem' [= <-]. rewrite length_splice; [done|].
      rewrite <- iov_length_flatten. simpl. lia.
    - apply Forall_app. split; [done|]. repeat constructor; simpl.
      + rewrite length_take, length_splice;
          rewrite <- ?iov_length_flatten; simpl; lia.
      + rewrite length_take, length_splice;
          rewrite <- ?iov_length_flatten; simpl; lia. }
  intros Hinv. rewrite fv_queue_thread_elem_eq.
  destruct (fbuf_mem t) as [mem|] eqn:Hmem; [by apply Hbody|]. cbv zeta.
  assert (Hinv1 : worker_inv se (after_malloc malloc se t)).
  { unfold after_malloc.
    destruct (worker_inv_emit (EvMalloc (bufsize se)) t) as (_ & Hr & Hc1 & Hc2);
      try done.
    split_and!; try done. simpl. intros mem Hmal. by apply malloc_size. }
  destruct (malloc (bufsize se)) as [mem|] eqn:Hmal; [|done].
  destruct (sizeof_fuse_in_header <? bufsize se); [|done].
  apply Hbody; [done|]. unfold after_malloc. simpl. done.
Qed.

Lemma fv_queue_thread_worker_inv wakes t :
  worker_inv se t → worker_inv se (fv_queue_thread malloc se wakes t).2.
Proof.
  apply (fv_queue_thread_lift (worker_inv se) (worker_inv se)); try done.
  - intros elem t1 Hinv. pose proof (fv_queue_thread_elem_worker_inv elem t1 Hinv).
    by destruct (fv_queue_thread_elem malloc se elem t1) as [[] ?].
  - intros t1 (Hm & Hr & Hc1 & Hc2). unfold worker_inv. simpl.
    by split_and!.
  - intros t1 Hinv. by apply worker_inv_emit.
Qed.

(** X13.  Whatever the guest submits and whatever the system answers,
    every request the worker hands to the session has at least the size of
    a request header and at most [se->bufsize] bytes. *)
Theorem fv_queue_thread_requests_sized (wakes : list wake) (t : thread_st) :
  thr_log t = [] →
  ∀ i req, EvProcessBuf i req ∈ thr_log (fv_queue_thread malloc se wakes t).2 →
           sizeof_fuse_in_header ≤ length req ≤ bufsize se.
Proof.
  intros Hlog i req Hin.
  assert (Hinv : worker_inv se (set_fbuf_mem None t)).
  { unfold worker_inv. simpl. rewrite Hlog. by split_and!. }
  assert (Hrun : fv_queue_thread malloc se wakes t
                 = fv_queue_thread malloc se wakes (set_fbuf_mem None t)) by done.
  rewrite Hrun in Hin.
  destruct (fv_queue_thread_worker_inv wakes _ Hinv) as (_ & Hr & _).
  rewrite Forall_forall in Hr. by apply (Hr _ Hin).
Qed.


End worker_more.

Section worker_misconfigured.
Context `{FuseAbi}.
Variable malloc : nat → option (list byte).
Variable se : fuse_session.

(** X15.  With a session whose [bufsize] is not above the size of a
    request header, or when the request buffer cannot be allocated, the
    worker stops at the first chain it pops: on no script does it copy a
    chain or call the session. *)
Theorem fv_queue_thread_misconfigured (wakes : list wake) (t : thread_st) :
  bufsize se ≤ sizeof_fuse_in_header ∨ malloc (bufsize se) = None →
  thr_log t = [] →
  no_chain_event (thr_log (fv_queue_thread malloc se wakes t).2).
Proof.
  intros Hbad Hlog.
  assert (Hrun : fv_queue_thread malloc se wakes t
                 = fv_queue_thread malloc se wakes (set_fbuf_mem None t)) by done.
  rewrite Hrun.
  apply (fv_queue_thread_lift malloc se
           (λ t, fbuf_mem t = None ∧ no_chain_event (thr_log t))
           (λ t, no_chain_event (thr_log t))).
  - by intros t1 [_ ?].
  - intros elem t1 [Hmem Hno]. rewrite fv_queue_thread_elem_eq, Hmem. cbv zeta.
    assert (Hno1 : no_chain_event (thr_log (after_malloc malloc se t1))).
    { unfold after_malloc. simpl. apply Forall_app. split; [done|].
      by repeat constructor. }
    destruct (malloc (bufsize se)) as [mem|]; [|done].
    destruct (Nat.ltb_spec sizeof_fuse_in_header (bufsize se)); [|done].
    destruct Hbad as [Hbad|Hbad]; [lia|done].
  - by intros t1 [_ ?].
  - intros t1 [_ Hno]. simpl. apply Forall_app. split; [done|].
    by repeat constructor.
  - simpl. rewrite Hlog. by split; [|constructor].
Qed.

End worker_misconfigured.

Lemma fv_queue_thread_elem_hands_request_witness :
  fv_queue_thread_elem (H := linux_abi) ex_malloc ex_se (ex_chain 4)
    (ThreadSt (Some (replicate 64 x77%byte)) 50 None [])
  = (Done tt,
     ThreadSt (Some (flatten (out_sg (ex_chain 4)) ++ replicate 22 x77%byte)) 42 None
       [EvCopyFromIov 4 42; EvProcessBuf 4 (flatten (out_sg (ex_chain 4)));
        EvFreeElem 4]).
Proof.
  apply (fv_queue_thread_elem_hands_request (H := linux_abi) ex_malloc ex_se
           (ex_chain 4) (ThreadSt (Some (replicate 64 x77%byte)) 50 None [])
           (replicate 64 x77%byte)).
  - reflexivity.
  - reflexivity.
  - vm_compute. lia.
Defined.

Lemma fv_queue_thread_requests_sized_witness :
  EvProcessBuf 2 (flatten (out_sg (ex_chain 2)))
    ∈ thr_log (fv_queue_thread (H := linux_abi) ex_malloc ex_se ex_wakes ex_thread).2 ∧
  40 ≤ length (flatten (out_sg (ex_chain 2))) ≤ 64.
Proof.
  assert (Hin : EvProcessBuf 2 (flatten (out_sg (ex_chain 2)))
                  ∈ thr_log (fv_queue_thread (H := linux_abi) ex_malloc ex_se
                               ex_wakes ex_thread).2)
    by (vm_compute; repeat constructor).
  split; [exact Hin|].
  apply (fv_queue_thread_requests_sized (H := linux_abi) ex_malloc ex_se)
    with (wakes := ex_wakes) (t := ex_thread) (i := 2).
  - intros n mem [= <-]. apply length_replicate.
  - reflexivity.
  - exact Hin.
Defined.


Lemma fv_queue_thread_misconfigured_witness :
  no_chain_event
    (thr_log (fv_queue_thread (H := linux_abi) ex_malloc (Session 40 false)
                ex_wakes ex_thread).2).
Proof.
  apply (fv_queue_thread_misconfigured (H := linux_abi) ex_malloc (Session 40 false)).
  - left. vm_compute. lia.
  - reflexivity.
Defined.

(** ** The queue life cycle on every call *)

(** A start beyond the table is the growth of the table by null entries,
    followed by a start within the table. *)
Lemma fv_queue_set_started_grow_then (os : sys) (qidx : Z) (w : world) :
  (0 < qidx)%Z → nqueues w ≤ Z.to_nat qidx → realloc_ok os = true →
  fv_queue_set_started os qidx true w =
  fv_queue_set_started os qidx true
    (set_vud_qi (λ qi, qi ++ replicate (1 + (Z.to_nat qidx - nqueues w)) None) w).
Proof.
  intros Hpos Hbeyond Hrealloc.
  set (w1 := set_vud_qi _ w).
  assert (Hn1 : nqueues w1 = Z.to_nat qidx + 1).
  { unfold w1, nqueues, set_vud_qi in *. cbn [vud_qi].
    rewrite length_app, length_replicate. lia. }
  unfold fv_queue_set_started.
  rewrite (proj2 (Z.leb_le 0 qidx)) by lia. mstep.
  rewrite (proj2 (Z.eqb_neq qidx 0)) by lia. mstep.
  rewrite (proj2 (Nat.leb_le (nqueues w) (Z.to_nat qidx))) by done.
  rewrite (proj2 (Nat.leb_gt (nqueues w1) (Z.to_nat qidx))) by lia. mstep.
  rewrite Hrealloc. mstep.
  unfold nqueues at 1 2. rewrite memset_realloc by done. by mstep.
Qed.

Lemma fv_queue_set_started_realloc_fails (os : sys) (qidx : Z) (w : world) :
  (0 < qidx)%Z → nqueues w ≤ Z.to_nat qidx → realloc_ok os = false →
  (fv_queue_set_started os qidx true w).1 = AssertFail.
Proof.
  intros Hpos Hbeyond Hrealloc. unfold fv_queue_set_started.
  rewrite (proj2 (Z.leb_le 0 qidx)) by lia. mstep.
  rewrite (proj2 (Z.eqb_neq qidx 0)) by lia. mstep.
  rewrite (proj2 (Nat.leb_le (nqueues w) (Z.to_nat qidx))) by done. mstep.
  rewrite Hrealloc. by mstep.
Qed.

(** The world after the thread of record [ourqi] was created for queue
    [qidx]: the record has the kick handle of the device and the new
    thread handle. *)
Lemma fv_queue_set_started_within (os : sys) (qidx : Z) (w : world) :
  (0 < qidx)%Z → Z.to_nat qidx < nqueues w →
  fv_queue_set_started os qidx true w =
    let i := Z.to_nat qidx in
    let spawn (ourqi : loc) (w0 : world) : outcome unit * world :=
      let w1 := set_heap (alter (set_kick_fd (vq_kick_fd w qidx)) ourqi) w0 in
      match pthread_create os with
      | Some tid =>
          (Done tt,
           emit (EvThreadCreate qidx ourqi) (set_heap (alter (set_thread tid) ourqi) w1))
      | None => (AssertFail, w1)
      end in
    match vud_qi w !! i with
    | None => (OutOfBounds, w)
    | Some None =>
        if calloc_ok os then
          let ourqi := fresh (dom (heap w)) in
          spawn ourqi (set_heap (<[ourqi := QueueInfo 0 qidx 0 None]>)
                         (set_vud_qi (<[i := Some ourqi]>) w))
        else (OutOfBounds, w)
    | Some (Some ourqi) =>
        match heap w !! ourqi with
        | None => (OutOfBounds, w)
        | Some r => if (kick_fd r =? -1)%Z then spawn ourqi w else (AssertFail, w)
        end
    end.
Proof.
  intros Hpos Hin. cbv zeta. unfold fv_queue_set_started.
  rewrite (proj2 (Z.leb_le 0 qidx)) by lia. mstep.
  rewrite (proj2 (Z.eqb_neq qidx 0)) by lia. mstep.
  rewrite (proj2 (Nat.leb_gt (nqueues w) (Z.to_nat qidx))) by done. mstep.
  destruct (vud_qi w !! Z.to_nat qidx) as [[ourqi|]|] eqn:Hslot.
  - rewrite (bind_table_get _ (Some ourqi)) by done. mstep.
    destruct (heap w !! ourqi) as [r|] eqn:Hr.
    + rewrite (bind_deref _ r) by done. mstep.
      destruct (kick_fd r =? -1)%Z; mstep; [|done].
      destruct (pthread_create os); by mstep.
    + unfold deref, mbind, M_bind. by rewrite Hr.
  - rewrite (bind_table_get _ None) by done. mstep.
    destruct (calloc_ok os); cbn [negb]; mstep; [|done].
    destruct (pthread_create os); by mstep.
  - unfold table_get, mbind, M_bind. by rewrite Hslot.
Qed.

Lemma fv_queue_set_started_stop_eq (os : sys) (qidx : Z) (w : world) :
  (0 < qidx)%Z →
  fv_queue_set_started os qidx false w =
    if Z.to_nat qidx <? nqueues w then
      match vud_qi w !! Z.to_nat qidx with
      | Some (Some ourqi) =>
          match heap w !! ourqi with
          | Some _ => (Done tt, set_heap (alter (set_kick_fd (-1)) ourqi) w)
          | None => (OutOfBounds, w)
          end
      | _ => (OutOfBounds, w)
      end
    else (AssertFail, w).
Proof.
  intros Hpos. unfold fv_queue_set_started.
  rewrite (proj2 (Z.leb_le 0 qidx)) by lia. mstep.
  rewrite (proj2 (Z.eqb_neq qidx 0)) by lia. mstep.
  destruct (Z.to_nat qidx <? nqueues w); mstep; [|done].
  destruct (vud_qi w !! Z.to_nat qidx) as [[ourqi|]|] eqn:Hslot.
  - rewrite (bind_table_get _ (Some ourqi)) by done. cbn [from_option]. mstep.
    destruct (heap w !! ourqi) as [r|] eqn:Hr.
    + rewrite (bind_deref _ r) by done. by mstep.
    + unfold deref, mbind, M_bind. by rewrite Hr.
  - by rewrite (bind_table_get _ None) by done.
  - unfold table_get, mbind, M_bind. by rewrite Hslot.
Qed.

Lemma heap_spawn (heap0 : gmap loc fv_QueueInfo) (p : loc) (r0 : fv_QueueInfo)
    (fd : Z) (tid : pthread_t) :
  heap0 !! p = Some r0 →
  alter (set_thread tid) p (alter (set_kick_fd fd) p heap0)
  = <[p := QueueInfo tid (qidx r0) fd (qe r0)]> heap0.
Proof.
  intros Hp. rewrite <- (insert_id heap0 p r0 Hp) at 1.
  by rewrite !alter_insert_eq.
Qed.

(** Every start within the table that returns has this shape: the entry is
    [ourqi], either found there with an invalid kick handle or freshly
    allocated; its record has the kick handle of the device and the new
    thread; one thread creation is logged. *)
Lemma fv_queue_set_started_within_done (os : sys) (idx : Z) (w : world) :
  (0 < idx)%Z → Z.to_nat idx < nqueues w →
  (fv_queue_set_started os idx true w).1 = Done tt →
  ∃ ourqi r0 tid,
    pthread_create os = Some tid ∧
    (vud_qi w !! Z.to_nat idx = Some None ∧ heap w !! ourqi = None ∧
     r0 = QueueInfo 0 idx 0 None
     ∨ vud_qi w !! Z.to_nat idx = Some (Some ourqi) ∧ heap w !! ourqi = Some r0 ∧
       kick_fd r0 = (-1)%Z) ∧
    (fv_queue_set_started os idx true w).2 =
      World (<[Z.to_nat idx := Some ourqi]> (vud_qi w))
            (<[ourqi := QueueInfo tid (qidx r0) (vq_kick_fd w idx) (qe r0)]> (heap w))
            (vq_kick_fd w)
            (log w ++ [EvThreadCreate idx ourqi]).
Proof.
  intros Hpos Hin. rewrite fv_queue_set_started_within by done. cbv zeta.
  destruct (vud_qi w !! Z.to_nat idx) as [[ourqi|]|] eqn:Hslot; [| |done].
  - destruct (heap w !! ourqi) as [r|] eqn:Hr; [|done].
    destruct (Z.eqb_spec (kick_fd r) (-1)) as [Hfd|Hfd]; [|done].
    destruct (pthread_create os) as [tid|]; [|done]. intros _.
    exists ourqi, r, tid. split; [done|]. split; [by right|].
    unfold emit, set_heap. cbn [vud_qi heap vq_kick_fd log fst snd].
    rewrite (heap_spawn _ _ r) by done. by rewrite list_insert_id.
  - destruct (calloc_ok os); [|done].
    destruct (pthread_create os) as [tid|]; [|done]. intros _.
    exists (fresh (dom (heap w))), (QueueInfo 0 idx 0 None), tid.
    split; [done|]. split.
    { left. split_and!; try done. apply not_elem_of_dom, is_fresh. }
    unfold emit, set_heap, set_vud_qi. cbn [vud_qi heap vq_kick_fd log fst snd].
    rewrite (heap_spawn _ _ (QueueInfo 0 idx 0 None)) by apply lookup_insert_eq.
    by rewrite insert_insert_eq.
Qed.

(** The same for every start that returns: beyond the table, the table is
    first extended by null entries up to the index. *)
Lemma fv_queue_set_started_start_done (os : sys) (idx : Z) (w : world) :
  (0 < idx)%Z →
  (fv_queue_set_started os idx true w).1 = Done tt →
  ∃ qi1 ourqi r0 tid,
    pthread_create os = Some tid ∧
    (qi1 = vud_qi w ∧ Z.to_nat idx < nqueues w
     ∨ qi1 = vud_qi w ++ replicate (1 + (Z.to_nat idx - nqueues w)) None ∧
       nqueues w ≤ Z.to_nat idx) ∧
    (qi1 !! Z.to_nat idx = Some None ∧ heap w !! ourqi = None ∧
     r0 = QueueInfo 0 idx 0 None
     ∨ qi1 !! Z.to_nat idx = Some (Some ourqi) ∧ heap w !! ourqi = Some r0 ∧
       kick_fd r0 = (-1)%Z) ∧
    (fv_queue_set_started os idx true w).2 =
      World (<[Z.to_nat idx := Some ourqi]> qi1)
            (<[ourqi := QueueInfo tid (qidx r0) (vq_kick_fd w idx) (qe r0)]> (heap w))
            (vq_kick_fd w)
            (log w ++ [EvThreadCreate idx ourqi]).
Proof.
  intros Hpos Hdone.
  destruct (decide (Z.to_nat idx < nqueues w)) as [Hin|Hout].
  - destruct (fv_queue_set_started_within_done os idx w)
      as (ourqi & r0 & tid & Hth & Hcase & Hw); try done.
    exists (vud_qi w), ourqi, r0, tid. split_and!; try done. by left.
  - destruct (realloc_ok os) eqn:Hrealloc.
    2:{ rewrite fv_queue_set_started_realloc_fails in Hdone; [done|done|lia|done]. }
    rewrite fv_queue_set_started_grow_then in Hdone |- * by (try done; lia).
    set (w1 := set_vud_qi _ w) in *.
    destruct (fv_queue_set_started_within_done os idx w1)
      as (ourqi & r0 & tid & Hth & Hcase & Hw); try done.
    { unfold w1, nqueues, set_vud_qi. cbn [vud_qi].
      rewrite length_app, length_replicate. unfold nqueues in Hout. lia. }
    exists (vud_qi w1), ourqi, r0, tid. split_and!; try done.
    right. split; [done|lia].
Qed.

(** X16.  A stop of a queue that has a record marks the kick handle of the
    record invalid (-1) and does nothing else: the thread handle stays (the
    thread is not stopped), the record stays in the table, the other
    records and the log are as before. *)
Theorem fv_queue_set_started_stop (os : sys) (idx : Z) (w : world)
    (ourqi : loc) (r : fv_QueueInfo) :
  (0 < idx)%Z →
  vud_qi w !! Z.to_nat idx = Some (Some ourqi) →
  heap w !! ourqi = Some r →
  fv_queue_set_started os idx false w =
    (Done tt,
     World (vud_qi w)
           (<[ourqi := QueueInfo (thread r) (qidx r) (-1) (qe r)]> (heap w))
           (vq_kick_fd w) (log w)).
Proof.
  intros Hpos Hslot Hr. rewrite fv_queue_set_started_stop_eq by done.
  rewrite (proj2 (Nat.ltb_lt _ _)) by (by eapply lookup_lt_Some).
  rewrite Hslot, Hr. unfold set_heap. do 2 f_equal.
  rewrite <- (insert_id (heap w) ourqi r Hr) at 1. by rewrite alter_insert_eq.
Qed.

Lemma fv_queue_set_started_stop_witness :
  fv_queue_set_started ex_sys 1 false (ex_world ex_elem) =
    (Done tt,
     World [None; Some 1%positive]
           (<[1%positive := QueueInfo 10 1 (-1) (Some ex_elem)]>
              (heap (ex_world ex_elem)))
           (vq_kick_fd (ex_world ex_elem)) []).
Proof.
  apply (fv_queue_set_started_stop ex_sys 1 (ex_world ex_elem) 1%positive
           (ex_qi ex_elem)); [lia | reflexivity | reflexivity].
Defined.

(** X17.  A call with a negative index, and a stop of a queue beyond the
    end of the table, stop at an assertion in the state they were called
    in. *)
Theorem fv_queue_set_started_asserts (os : sys) (idx : Z) (started : bool) (w : world) :
  (idx < 0)%Z ∨ (started = false ∧ (0 < idx)%Z ∧ nqueues w ≤ Z.to_nat idx) →
  fv_queue_set_started os idx started w = (AssertFail, w).
Proof.
  intros [Hneg|(-> & Hpos & Hout)].
  - unfold fv_queue_set_started.
    rewrite (proj2 (Z.leb_gt 0 idx)) by lia. by mstep.
  - rewrite fv_queue_set_started_stop_eq by done.
    by rewrite (proj2 (Nat.ltb_ge _ _)) by lia.
Qed.

Lemma fv_queue_set_started_asserts_witness :
  fv_queue_set_started ex_sys (-1) true (ex_world ex_elem)
    = (AssertFail, ex_world ex_elem) ∧
  fv_queue_set_started ex_sys 5 false (ex_world ex_elem)
    = (AssertFail, ex_world ex_elem).
Proof.
  split.
  - apply (fv_queue_set_started_asserts ex_sys (-1) true). left. lia.
  - apply (fv_queue_set_started_asserts ex_sys 5 false). right.
    split_and!; [done | lia | vm_compute; lia].
Defined.

(** X18.  A stop of a queue whose table entry is null (an entry the table
    got when it grew for a higher index, never started) goes through the
    null pointer. *)
Theorem fv_queue_set_started_stop_null (os : sys) (idx : Z) (w : world) :
  (0 < idx)%Z →
  vud_qi w !! Z.to_nat idx = Some None →
  fv_queue_set_started os idx false w = (OutOfBounds, w).
Proof.
  intros Hpos Hslot. rewrite fv_queue_set_started_stop_eq by done.
  rewrite (proj2 (Nat.ltb_lt _ _)) by (by eapply lookup_lt_Some).
  by rewrite Hslot.
Qed.

Lemma fv_queue_set_started_stop_null_witness :
  fv_queue_set_started ex_sys 2 false
    (fv_queue_set_started ex_sys 3 true (ex_world ex_elem)).2
  = (OutOfBounds, (fv_queue_set_started ex_sys 3 true (ex_world ex_elem)).2).
Proof.
  apply (fv_queue_set_started_stop_null ex_sys 2); [lia | reflexivity].
Defined.

(** X19.  After every start of a queue [idx >= 1] that returns, the table
    has a record for the queue, the record holds the current kick handle
    of the device's queue and the handle of the thread just created, and
    the creation of that one thread, bound to that record, is the only
    thing added to the log. *)
Theorem fv_queue_set_started_captures (os : sys) (idx : Z) (w : world) :
  (0 < idx)%Z →
  (fv_queue_set_started os idx true w).1 = Done tt →
  let w' := (fv_queue_set_started os idx true w).2 in
  ∃ ourqi r tid,
    pthread_create os = Some tid ∧
    vud_qi w' !! Z.to_nat idx = Some (Some ourqi) ∧
    heap w' !! ourqi = Some r ∧
    kick_fd r = vq_kick_fd w idx ∧ thread r = tid ∧
    log w' = log w ++ [EvThreadCreate idx ourqi].
Proof.
  intros Hpos Hdone. cbv zeta.
  destruct (fv_queue_set_started_start_done os idx w)
    as (qi1 & ourqi & r0 & tid & Hth & Hqi & Hcase & ->); try done.
  exists ourqi, (QueueInfo tid (qidx r0) (vq_kick_fd w idx) (qe r0)), tid.
  cbn [vud_qi heap log]. split_and!; try done.
  - apply list_lookup_insert_eq.
    destruct Hcase as [(Hl & _)|(Hl & _)]; by eapply lookup_lt_Some.
  - apply lookup_insert_eq.
Qed.

Lemma fv_queue_set_started_captures_witness :
  let w' := (fv_queue_set_started ex_sys 3 true (ex_world ex_elem)).2 in
  ∃ ourqi r tid,
    pthread_create ex_sys = Some tid ∧
    vud_qi w' !! 3 = Some (Some ourqi) ∧
    heap w' !! ourqi = Some r ∧
    kick_fd r = 3%Z ∧ thread r = tid ∧
    log w' = [EvThreadCreate 3 ourqi].
Proof.
  apply (fv_queue_set_started_captures ex_sys 3 (ex_world ex_elem));
    [lia | reflexivity].
Defined.

(** The record of a queue right after a start that returned. *)
Lemma fv_queue_set_started_started (os : sys) (idx : Z) (w : world) :
  (0 < idx)%Z →
  (fv_queue_set_started os idx true w).1 = Done tt →
  let w' := (fv_queue_set_started os idx true w).2 in
  ∃ ourqi r,
    Z.to_nat idx < nqueues w' ∧
    vud_qi w' !! Z.to_nat idx = Some (Some ourqi) ∧
    heap w' !! ourqi = Some r ∧
    kick_fd r = vq_kick_fd w idx ∧
    vq_kick_fd w' = vq_kick_fd w ∧
    log w' = log w ++ [EvThreadCreate idx ourqi].
Proof.
  intros Hpos Hdone. cbv zeta.
  destruct (fv_queue_set_started_start_done os idx w)
    as (qi1 & ourqi & r0 & tid & Hth & Hqi & Hcase & ->); try done.
  assert (Hlt : Z.to_nat idx < length qi1)
    by (destruct Hcase as [(Hl & _)|(Hl & _)]; by eapply lookup_lt_Some).
  exists ourqi, (QueueInfo tid (qidx r0) (vq_kick_fd w idx) (qe r0)).
  unfold nqueues. cbn [vud_qi heap log vq_kick_fd]. split_and!; try done.
  - by rewrite length_insert.
  - by apply list_lookup_insert_eq.
  - apply lookup_insert_eq.
Qed.

(** X20.  A queue cannot be started twice in a row: after a start that
    returned, a second start of the same queue stops at the assertion on
    the kick handle (as long as the kick handle of the device's queue is
    not -1 itself), and creates no second thread. *)
Theorem fv_queue_set_started_twice (os1 os2 : sys) (idx : Z) (w : world) :
  (0 < idx)%Z →
  vq_kick_fd w idx ≠ (-1)%Z →
  (fv_queue_set_started os1 idx true w).1 = Done tt →
  let w1 := (fv_queue_set_started os1 idx true w).2 in
  fv_queue_set_started os2 idx true w1 = (AssertFail, w1).
Proof.
  intros Hpos Hfd Hdone. cbv zeta.
  destruct (fv_queue_set_started_started os1 idx w)
    as (ourqi & r & Hlt & Hslot & Hr & Hk & _); try done.
  rewrite fv_queue_set_started_within by done. cbv zeta.
  rewrite Hslot, Hr.
  by rewrite (proj2 (Z.eqb_neq (kick_fd r) (-1))) by congruence.
Qed.

Lemma fv_queue_set_started_twice_witness :
  let w1 := (fv_queue_set_started ex_sys 3 true (ex_world ex_elem)).2 in
  fv_queue_set_started ex_sys 3 true w1 = (AssertFail, w1).
Proof.
  apply (fv_queue_set_started_twice ex_sys ex_sys 3 (ex_world ex_elem));
    [lia | vm_compute; lia | reflexivity].
Defined.

(** X21.  Start, stop, start: a stopped queue can be started again.  The
    second start finds the record of the first one in the same table
    entry, and binds a second thread to it; the table is the one the first
    start left. *)
Theorem fv_queue_set_started_restart (os1 os2 os3 : sys) (idx : Z) (w : world)
    (tid3 : pthread_t) :
  (0 < idx)%Z →
  (fv_queue_set_started os1 idx true w).1 = Done tt →
  pthread_create os3 = Some tid3 →
  let w1 := (fv_queue_set_started os1 idx true w).2 in
  let w2 := (fv_queue_set_started os2 idx false w1).2 in
  let w3 := (fv_queue_set_started os3 idx true w2).2 in
  (fv_queue_set_started os2 idx false w1).1 = Done tt ∧
  (fv_queue_set_started os3 idx true w2).1 = Done tt ∧
  vud_qi w3 = vud_qi w1 ∧
  ∃ ourqi r,
    vud_qi w3 !! Z.to_nat idx = Some (Some ourqi) ∧
    heap w3 !! ourqi = Some r ∧
    thread r = tid3 ∧ kick_fd r = vq_kick_fd w idx ∧
    log w3 = log w ++ [EvThreadCreate idx ourqi; EvThreadCreate idx ourqi].
Proof.
  intros Hpos Hdone Hth3. cbv zeta.
  destruct (fv_queue_set_started_started os1 idx w)
    as (ourqi & r & Hlt & Hslot & Hr & Hk & Hdev & Hlog); try done.
  set (w1 := (fv_queue_set_started os1 idx true w).2) in *.
  rewrite fv_queue_set_started_stop_eq by done.
  rewrite (proj2 (Nat.ltb_lt _ _)) by done. rewrite Hslot, Hr.
  cbn [fst snd]. split; [done|].
  set (w2 := set_heap (alter (set_kick_fd (-1)) ourqi) w1).
  assert (Hr2 : heap w2 !! ourqi = Some (set_kick_fd (-1) r)).
  { unfold w2, set_heap. cbn [heap]. by rewrite lookup_alter_eq, Hr. }
  rewrite (fv_queue_set_started_within os3 idx w2) by done. cbv zeta.
  change (vud_qi w2) with (vud_qi w1). rewrite Hslot, Hr2. cbn [kick_fd set_kick_fd].
  rewrite Z.eqb_refl, Hth3. cbn [fst snd]. split; [done|].
  unfold emit, set_heap. cbn [vud_qi heap vq_kick_fd log]. split; [done|].
  exists ourqi, (set_thread tid3 (set_kick_fd (vq_kick_fd w1 idx) (set_kick_fd (-1) r))).
  split_and!; try done.
  - by rewrite !lookup_alter_eq, Hr2.
  - simpl. by rewrite Hdev.
  - change (log w2) with (log w1). rewrite Hlog. by rewrite <- app_assoc.
Qed.

Lemma fv_queue_set_started_restart_witness :
  let w1 := (fv_queue_set_started ex_sys 3 true (ex_world ex_elem)).2 in
  let w2 := (fv_queue_set_started ex_sys 3 false w1).2 in
  let w3 := (fv_queue_set_started ex_sys 3 true w2).2 in
  (fv_queue_set_started ex_sys 3 false w1).1 = Done tt ∧
  (fv_queue_set_started ex_sys 3 true w2).1 = Done tt ∧
  vud_qi w3 = vud_qi w1 ∧
  ∃ ourqi r,
    vud_qi w3 !! 3 = Some (Some ourqi) ∧
    heap w3 !! ourqi = Some r ∧
    thread r = 77%Z ∧ kick_fd r = 3%Z ∧
    log w3 = [EvThreadCreate 3 ourqi; EvThreadCreate 3 ourqi].
Proof.
  apply (fv_queue_set_started_restart ex_sys ex_sys ex_sys 3 (ex_world ex_elem) 77%Z);
    [lia | reflexivity | reflexivity].
Defined.

Lemma fv_queue_set_started_done_cases (os : sys) (idx : Z) (started : bool) (w : world) :
  (fv_queue_set_started os idx started w).1 = Done tt →
  idx = 0%Z ∧ (fv_queue_set_started os idx started w).2 = w ∨ (0 < idx)%Z.
Proof.
  intros Hdone. destruct (Z.lt_trichotomy idx 0) as [Hneg|[->|Hpos]].
  - unfold fv_queue_set_started in Hdone.
    rewrite (proj2 (Z.leb_gt 0 idx)) in Hdone by lia. by rewrite bind_assert_false in Hdone.
  - by left.
  - by right.
Qed.

Lemma grown_lookup_Some (qi qi1 : list (option loc)) (k j : nat) (q : loc) :
  qi1 = qi ∨ qi1 = qi ++ replicate k None →
  qi1 !! j = Some (Some q) → qi !! j = Some (Some q).
Proof.
  intros [->| ->]; [done|]. rewrite lookup_app_Some.
  intros [Hl|[_ Hr]]; [done|]. by apply lookup_replicate in Hr as [? _].
Qed.

Lemma fv_queue_set_started_wf_step (os : sys) (idx : Z) (started : bool) (w : world) :
  table_wf w →
  (fv_queue_set_started os idx started w).1 = Done tt →
  table_wf (fv_queue_set_started os idx started w).2.
Proof.
  intros [Hwf Hzero] Hdone.
  destruct (fv_queue_set_started_done_cases os idx started w Hdone)
    as [[_ ->]|Hpos]; [done|].
  destruct started.
  - destruct (fv_queue_set_started_start_done os idx w)
      as (qi1 & ourqi & r0 & tid & Hth & Hqi & Hcase & ->); try done.
    assert (Hgrown : qi1 = vud_qi w ∨
                     qi1 = vud_qi w ++ replicate (1 + (Z.to_nat idx - nqueues w)) None)
      by (destruct Hqi as [[? _]|[? _]]; auto).
    assert (Hlt : Z.to_nat idx < length qi1)
      by (destruct Hcase as [(Hl & _)|(Hl & _)]; by eapply lookup_lt_Some).
    assert (Hidx : qidx r0 = Z.of_nat (Z.to_nat idx)).
    { destruct Hcase as [(_ & _ & ->)|(Hl & Hr0 & _)]; [simpl; lia|].
      apply (grown_lookup_Some (vud_qi w) _ _ _ _ Hgrown) in Hl.
      destruct (Hwf _ _ Hl) as (r & Hr & Hq). congruence. }
    split; cbn [vud_qi heap].
    + intros j q Hj. destruct (decide (j = Z.to_nat idx)) as [->|Hne].
      * rewrite list_lookup_insert_eq in Hj by done. injection Hj as <-.
        rewrite lookup_insert_eq. by eexists.
      * rewrite list_lookup_insert_ne in Hj by done.
        apply (grown_lookup_Some (vud_qi w) _ _ _ _ Hgrown) in Hj.
        destruct (Hwf _ _ Hj) as (r & Hr & Hq).
        assert (Hqp : ourqi ≠ q).
        { intros <-. destruct Hcase as [(_ & Hnone & _)|(Hl & Hr0 & _)]; [congruence|].
          assert (r = r0) as -> by congruence. lia. }
        rewrite lookup_insert_ne by done. by exists r.
    + intros q. rewrite list_lookup_insert_ne by lia. intros Hq.
      apply (grown_lookup_Some (vud_qi w) _ _ _ _ Hgrown) in Hq. by apply (Hzero q).
  - rewrite fv_queue_set_started_stop_eq in Hdone |- * by done.
    destruct (Z.to_nat idx <? nqueues w); [|done].
    destruct (vud_qi w !! Z.to_nat idx) as [[ourqi|]|]; try done.
    destruct (heap w !! ourqi) as [r0|] eqn:Hr0; [|done].
    split; cbn [snd vud_qi heap set_heap]; [|done].
    intros j q Hj. destruct (Hwf _ _ Hj) as (r & Hr & Hq).
    destruct (decide (ourqi = q)) as [->|Hne].
    + rewrite lookup_alter_eq, Hr. by eexists.
    + rewrite lookup_alter_ne by done. by exists r.
Qed.

(** X22.  Every call that returns keeps the queue table well formed: each
    non-null entry points to a record on the heap that carries the index
    of the entry, so no two entries share a record, and entry 0 stays
    null. *)
Theorem fv_queue_set_started_table_wf (os : sys) (idx : Z) (started : bool) (w : world) :
  table_wf w →
  (fv_queue_set_started os idx started w).1 = Done tt →
  table_wf (fv_queue_set_started os idx started w).2.
Proof. intros Hwf Hdone. by apply fv_queue_set_started_wf_step. Qed.

Lemma fv_queue_set_started_table_wf_witness :
  table_wf (fv_queue_set_started ex_sys 3 true (ex_world ex_elem)).2.
Proof.
  apply (fv_queue_set_started_table_wf ex_sys 3 true (ex_world ex_elem)).
  - split.
    + intros [|[|i]] p; [done| |done]. intros [= <-]. by exists (ex_qi ex_elem).
    + done.
  - reflexivity.
Defined.

(** X23.  No call ever shrinks the table, moves or clears a non-null
    entry, or removes a record from the heap: what a call that returns
    leaves is the old table, possibly longer, with the old non-null
    entries in place and all the old records still allocated. *)
Theorem fv_queue_set_started_monotone (os : sys) (idx : Z) (started : bool) (w : world) :
  (fv_queue_set_started os idx started w).1 = Done tt →
  let w' := (fv_queue_set_started os idx started w).2 in
  nqueues w ≤ nqueues w' ∧
  (∀ j p, vud_qi w !! j = Some (Some p) → vud_qi w' !! j = Some (Some p)) ∧
  dom (heap w) ⊆ dom (heap w').
Proof.
  intros Hdone. cbv zeta.
  destruct (fv_queue_set_started_done_cases os idx started w Hdone)
    as [[_ ->]|Hpos]; [done|].
  destruct started.
  - destruct (fv_queue_set_started_start_done os idx w)
      as (qi1 & ourqi & r0 & tid & Hth & Hqi & Hcase & ->); try done.
    unfold nqueues. cbn [vud_qi heap]. split_and!.
    + rewrite length_insert.
      destruct Hqi as [[-> _]|[-> _]]; [done|]. rewrite length_app. lia.
    + intros j p Hj.
      assert (Hj1 : qi1 !! j = Some (Some p)).
      { destruct Hqi as [[-> _]|[-> _]]; [done|]. by apply lookup_app_l_Some. }
      destruct (decide (j = Z.to_nat idx)) as [->|Hne].
      * rewrite list_lookup_insert_eq by (by eapply lookup_lt_Some).
        destruct Hcase as [(Hl & _)|(Hl & _)]; congruence.
      * by rewrite list_lookup_insert_ne.
    + rewrite dom_insert_L. apply union_subseteq_r.
  - rewrite fv_queue_set_started_stop_eq in Hdone |- * by done.
    destruct (Z.to_nat idx <? nqueues w); [|done].
    destruct (vud_qi w !! Z.to_nat idx) as [[ourqi|]|]; try done.
    destruct (heap w !! ourqi) as [r0|] eqn:Hr0; [|done].
    cbn [snd vud_qi heap set_heap]. split_and!; try done.
    by rewrite dom_alter_L.
Qed.

Lemma fv_queue_set_started_monotone_witness :
  let w' := (fv_queue_set_started ex_sys 3 true (ex_world ex_elem)).2 in
  nqueues (ex_world ex_elem) ≤ nqueues w' ∧
  (∀ j p, vud_qi (ex_world ex_elem) !! j = Some (Some p) →
          vud_qi w' !! j = Some (Some p)) ∧
  dom (heap (ex_world ex_elem)) ⊆ dom (heap w').
Proof.
  apply (fv_queue_set_started_monotone ex_sys 3 true (ex_world ex_elem)). reflexivity.
Defined.

(** ** The control loop *)

Lemma vu_dispatch_calls_wf (calls : list (sys * Z * bool)) : ∀ w,
  table_wf w →
  match vu_dispatch_calls calls w with
  | (Done _, w') => table_wf w'
  | _ => True
  end.
Proof.
  induction calls as [|[[os idx] started] calls IH]; intros w Hwf; [done|].
  cbn [vu_dispatch_calls]. unfold mbind, M_bind.
  pose proof (fv_queue_set_started_wf_step os idx started w Hwf) as Hstep.
  destruct (fv_queue_set_started os idx started w) as [[[]| | |] w1]; try done.
  apply IH. by apply Hstep.
Qed.

(** X24.  The control loop keeps the queue table well formed: whatever
    start and stop events the rounds of [vu_dispatch] deliver, in whatever
    order, a run of [virtio_loop] that does not abort leaves a table in
    which every non-null entry has its own record, carrying its index. *)
Theorem virtio_loop_table_wf (wakes : list ctl_wake) (w : world) (e : ctl_exit) :
  table_wf w →
  (virtio_loop wakes w).1 = Done e →
  table_wf (virtio_loop wakes w).2.
Proof.
  intros Hwf Hdone.
  assert (Hgen : ∀ wakes w, table_wf w →
    match virtio_loop wakes w with
    | (Done _, w') => table_wf w'
    | _ => True
    end).
  { clear. induction wakes as [|cw wakes IH]; intros w Hwf; [done|].
    cbn [virtio_loop]. destruct (cw_exited cw); [done|].
    destruct (cw_ppoll cw) as [| |poll_res revents]; [by apply IH|done|].
    destruct (poll_res =? -1)%Z; [done|].
    destruct (poll_res =? 1)%Z; mstep; [|done].
    destruct (negb (Z.land revents _ =? 0)%Z); [done|].
    destruct (negb (Z.land revents POLLIN =? 0)%Z); mstep; [|done].
    unfold mbind, M_bind.
    pose proof (vu_dispatch_calls_wf (vr_calls (cw_round cw)) w Hwf) as Hcalls.
    destruct (vu_dispatch_calls (vr_calls (cw_round cw)) w) as [[[]| | |] w1];
      try done.
    destruct (negb (vr_ok (cw_round cw))); [done|]. by apply IH. }
  specialize (Hgen wakes w Hwf).
  destruct (virtio_loop wakes w) as [[e'| | |] w']; by simpl in *.
Qed.

Lemma virtio_loop_table_wf_witness :
  table_wf (virtio_loop ex_ctl_wakes ex_world_empty).2.
Proof.
  apply (virtio_loop_table_wf ex_ctl_wakes ex_world_empty (CtlReturned 0)).
  - split; [by intros [|i] p|done].
  - reflexivity.
Defined.

(** ** The mount *)

Section mount_facts.
Variable sizeof_sun_path : nat.
Variable sizeof_sun_family : nat.

(** X25.  A socket path that does not fit [un.sun_path] with its NUL makes
    the mount return -1 before it touches anything: no system call is
    made and the session is as before. *)
Theorem virtio_session_mount_path_too_long (os : sock_sys) (st : mount_st) :
  sizeof_sun_path ≤ length (vu_socket_path (ms_se st)) →
  virtio_session_mount sizeof_sun_path sizeof_sun_family os st = (Done (-1)%Z, st).
Proof.
  intros Hlong. unfold virtio_session_mount. mstep.
  by rewrite (proj2 (Nat.leb_le _ _) Hlong).
Qed.

(** The run of the mount on a path that fits, by cases on what the system
    calls return. *)
Lemma virtio_session_mount_eq (os : sock_sys) (st : mount_st) :
  length (vu_socket_path (ms_se st)) < sizeof_sun_path →
  virtio_session_mount sizeof_sun_path sizeof_sun_family os st =
    let path := vu_socket_path (ms_se st) in
    let fd := sys_socket os in
    let log0 := ms_log st ++ [EvUnlink path; EvSocket fd] in
    let log1 := log0 ++ [EvBind fd (path ++ [x00%byte])
                           (sizeof_sun_family + length path)] in
    let log2 := log1 ++ [EvListen fd] in
    let log3 := log2 ++ [EvAccept fd (sys_accept os); EvClose fd] in
    let se1 := MountSe (to_int 0xdaff0d11) path (vu_socketfd (ms_se st))
                 (se_virtio_dev (ms_se st)) in
    if (fd =? -1)%Z then (Done (-1)%Z, MountSt se1 log0) else
    if (sys_bind os =? -1)%Z then (Done (-1)%Z, MountSt se1 log1) else
    if (sys_listen os =? -1)%Z then (Done (-1)%Z, MountSt se1 log2) else
    if (sys_accept os =? -1)%Z then (Done (-1)%Z, MountSt se1 log3) else
    if sys_calloc os then
      (Done 0%Z,
       MountSt (MountSe (to_int 0xdaff0d11) path (sys_accept os) (Some []))
         (log3 ++ [EvVuInit (sys_accept os)]))
    else
      (OutOfBounds,
       MountSt (MountSe (to_int 0xdaff0d11) path (sys_accept os) None) log3).
Proof.
  intros Hfit. cbv zeta. unfold virtio_session_mount. mstep.
  rewrite (proj2 (Nat.leb_gt _ _)) by done. mstep.
  unfold strcpy. rewrite (proj2 (Nat.leb_le _ _)) by (cbn; lia). mstep.
  unfold sock_emit, set_se_fd, set_vu_socketfd, set_virtio_dev.
  cbn [ms_se ms_log se_fd vu_socket_path vu_socketfd se_virtio_dev].
  destruct (sys_socket os =? -1)%Z;
    [unfold mret, M_ret; by rewrite <- ?app_assoc|]. mstep.
  cbn [ms_se ms_log se_fd vu_socket_path vu_socketfd se_virtio_dev].
  destruct (sys_bind os =? -1)%Z;
    [unfold mret, M_ret; by rewrite <- ?app_assoc|]. mstep.
  cbn [ms_se ms_log se_fd vu_socket_path vu_socketfd se_virtio_dev].
  destruct (sys_listen os =? -1)%Z;
    [unfold mret, M_ret; by rewrite <- ?app_assoc|]. mstep.
  cbn [ms_se ms_log se_fd vu_socket_path vu_socketfd se_virtio_dev].
  destruct (sys_accept os =? -1)%Z; mstep;
    cbn [ms_se ms_log se_fd vu_socket_path vu_socketfd se_virtio_dev];
    [unfold mret, M_ret; by rewrite <- ?app_assoc|].
  destruct (sys_calloc os); mstep;
    cbn [ms_se ms_log se_fd vu_socket_path vu_socketfd se_virtio_dev];
    unfold mret, M_ret; by rewrite <- ?app_assoc.
Qed.

(** X26.  When the path fits and [socket], [bind], [listen], [accept] and
    [calloc] all succeed, the mount returns 0 after exactly these steps, in
    this order: unlink of the path, socket, bind to the path with an
    address length that leaves the NUL out, listen, accept, close of the
    listening socket, [vu_init] on the accepted socket.  The session then
    holds the accepted socket, a poisoned [fd] and a device with an empty
    queue table. *)
Theorem virtio_session_mount_success (os : sock_sys) (st : mount_st) :
  length (vu_socket_path (ms_se st)) < sizeof_sun_path →
  sys_socket os ≠ (-1)%Z → sys_bind os ≠ (-1)%Z → sys_listen os ≠ (-1)%Z →
  sys_accept os ≠ (-1)%Z → sys_calloc os = true →
  let path := vu_socket_path (ms_se st) in
  virtio_session_mount sizeof_sun_path sizeof_sun_family os st =
    (Done 0%Z,
     MountSt (MountSe (to_int 0xdaff0d11) path (sys_accept os) (Some []))
       (ms_log st ++
        [EvUnlink path; EvSocket (sys_socket os);
         EvBind (sys_socket os) (path ++ [x00%byte]) (sizeof_sun_family + length path);
         EvListen (sys_socket os);
         EvAccept (sys_socket os) (sys_accept os);
         EvClose (sys_socket os);
         EvVuInit (sys_accept os)])).
Proof.
  intros Hfit Hs Hb Hl Ha Hc. rewrite virtio_session_mount_eq by done. cbv zeta.
  rewrite !(proj2 (Z.eqb_neq _ _)) by done. rewrite Hc.
  by rewrite <- !app_assoc.
Qed.

(** X27.  Whenever the mount returns -1, the session has no device and
    keeps the socket descriptor it had: [vu_socketfd] and [virtio_dev] are
    as before, and [vu_init] was not called.  And with [calloc] succeeding
    the mount always returns, 0 or -1: the [strcpy] into [un.sun_path]
    never leaves the array. *)
Theorem virtio_session_mount_failure (os : sock_sys) (st : mount_st) :
  sys_calloc os = true →
  let r := (virtio_session_mount sizeof_sun_path sizeof_sun_family os st).1 in
  let st' := (virtio_session_mount sizeof_sun_path sizeof_sun_family os st).2 in
  (r = Done 0%Z ∨ r = Done (-1)%Z) ∧
  (r = Done (-1)%Z →
   vu_socketfd (ms_se st') = vu_socketfd (ms_se st) ∧
   se_virtio_dev (ms_se st') = se_virtio_dev (ms_se st) ∧
   ∀ fd, EvVuInit fd ∈ ms_log st' → EvVuInit fd ∈ ms_log st).
Proof.
  intros Hc. cbv zeta.
  destruct (decide (sizeof_sun_path ≤ length (vu_socket_path (ms_se st)))) as [Hl|Hl].
  { unfold virtio_session_mount. rewrite bind_get.
    rewrite (proj2 (Nat.leb_le _ _) Hl). simpl. by split; [right|]. }
  rewrite virtio_session_mount_eq by lia. cbv zeta. rewrite Hc.
  assert (Hin : ∀ fd l, EvVuInit fd ∈ ms_log st ++ l →
            Forall (λ e, ∀ fd, e ≠ EvVuInit fd) l → EvVuInit fd ∈ ms_log st).
  { intros fd l Hin Hl'. apply elem_of_app in Hin as [?|Hin]; [done|].
    rewrite Forall_forall in Hl'. by destruct (Hl' _ Hin fd). }
  destruct (sys_socket os =? -1)%Z; simpl.
  { split; [by right|]. intros _. split_and!; try done. intros fd Hfd.
    apply (Hin fd _ Hfd). by repeat constructor. }
  destruct (sys_bind os =? -1)%Z; simpl.
  { split; [by right|]. intros _. split_and!; try done. intros fd Hfd.
    rewrite <- !app_assoc in Hfd. apply (Hin fd _ Hfd). by repeat constructor. }
  destruct (sys_listen os =? -1)%Z; simpl.
  { split; [by right|]. intros _. split_and!; try done. intros fd Hfd.
    rewrite <- !app_assoc in Hfd. apply (Hin fd _ Hfd). by repeat constructor. }
  destruct (sys_accept os =? -1)%Z; simpl.
  { split; [by right|]. intros _. split_and!; try done. intros fd Hfd.
    rewrite <- !app_assoc in Hfd. apply (Hin fd _ Hfd). by repeat constructor. }
  split; [by left|done].
Qed.

(** X28.  When [bind] or [listen] fails, the mount returns -1 and leaves
    the socket it created open: no [close] is among the calls it made.
    (Only a failed [accept] closes the listening socket.) *)
Theorem virtio_session_mount_socket_left_open (os : sock_sys) (st : mount_st) :
  length (vu_socket_path (ms_se st)) < sizeof_sun_path →
  sys_socket os ≠ (-1)%Z →
  sys_bind os = (-1)%Z ∨ sys_listen os = (-1)%Z →
  let run := virtio_session_mount sizeof_sun_path sizeof_sun_family os st in
  run.1 = Done (-1)%Z ∧
  ∃ calls, ms_log run.2 = ms_log st ++ EvUnlink (vu_socket_path (ms_se st))
                                    :: EvSocket (sys_socket os) :: calls ∧
           ∀ fd, EvClose fd ∉ calls.
Proof.
  intros Hfit Hs Hfail. cbv zeta. rewrite virtio_session_mount_eq by done. cbv zeta.
  rewrite (proj2 (Z.eqb_neq (sys_socket os) (-1))) by done.
  destruct (Z.eqb_spec (sys_bind os) (-1)) as [Hb|Hb]; simpl.
  { split; [done|]. eexists [_]. rewrite <- !app_assoc. split; [done|].
    intros fd Hin. apply list_elem_of_singleton in Hin. done. }
  destruct Hfail as [?|Hl]; [done|]. rewrite Hl. simpl.
  split; [done|]. eexists [_; _]. rewrite <- !app_assoc. split; [done|].
  intros fd Hin. apply elem_of_cons in Hin as [?|Hin]; [done|].
  apply list_elem_of_singleton in Hin. done.
Qed.

End mount_facts.

Lemma virtio_session_mount_path_too_long_witness :
  virtio_session_mount 6 2 ex_mount_sys ex_mount_st = (Done (-1)%Z, ex_mount_st).
Proof.
  apply (virtio_session_mount_path_too_long 6 2 ex_mount_sys ex_mount_st).
  vm_compute. lia.
Defined.

Lemma virtio_session_mount_success_witness :
  virtio_session_mount 108 2 ex_mount_sys ex_mount_st =
    (Done 0%Z,
     MountSt (MountSe (-620819183) [x2f; x74; x6d; x70; x2f; x76]%byte 5 (Some []))
       [EvUnlink [x2f; x74; x6d; x70; x2f; x76]%byte; EvSocket 4;
        EvBind 4 [x2f; x74; x6d; x70; x2f; x76; x00]%byte 8;
        EvListen 4; EvAccept 4 5; EvClose 4; EvVuInit 5]).
Proof.
  apply (virtio_session_mount_success 108 2 ex_mount_sys ex_mount_st);
    vm_compute; (lia || done).
Defined.

Lemma virtio_session_mount_failure_witness :
  let r := (virtio_session_mount 108 2 (SockSys 4 0 (-1) 5 true) ex_mount_st).1 in
  let st' := (virtio_session_mount 108 2 (SockSys 4 0 (-1) 5 true) ex_mount_st).2 in
  (r = Done 0%Z ∨ r = Done (-1)%Z) ∧
  (r = Done (-1)%Z →
   vu_socketfd (ms_se st') = (-1)%Z ∧
   se_virtio_dev (ms_se st') = None ∧
   ∀ fd, EvVuInit fd ∈ ms_log st' → EvVuInit fd ∈ ms_log ex_mount_st).
Proof.
  apply (virtio_session_mount_failure 108 2 (SockSys 4 0 (-1) 5 true) ex_mount_st).
  reflexivity.
Defined.

Lemma virtio_session_mount_socket_left_open_witness :
  let run := virtio_session_mount 108 2 (SockSys 4 (-1) 0 5 true) ex_mount_st in
  run.1 = Done (-1)%Z ∧
  ∃ calls, ms_log run.2 = ms_log ex_mount_st
                          ++ EvUnlink (vu_socket_path (ms_se ex_mount_st))
                             :: EvSocket 4 :: calls ∧
           ∀ fd, EvClose fd ∉ calls.
Proof.
  apply (virtio_session_mount_socket_left_open 108 2 (SockSys 4 (-1) 0 5 true)
           ex_mount_st); [vm_compute; lia | done | by left].
Defined.
